(** * RobustPGO: the pose-with-uncertainty algebra of [geometry_utils.h]

    A shallow embedding of [PoseWithCovariance<T>] and [PoseWithDistance<T>]
    (src/RobustPGO/utils/geometry_utils.h) and the properties their
    specification states about them.

    The header is a template over a pose type [T] of GTSAM and works on
    [double] through Eigen matrices.  Neither GTSAM nor Eigen belongs to the
    repository, so both enter as interfaces:
    - [Scalar]: the arithmetic of [double]; its instance [double_Scalar] is
      IEEE-754 binary64, [Z_Scalar] is exact arithmetic for the algebraic laws;
    - [LieGroup]: what the header asks of [T] (composition, inverse and
      relative pose with their Jacobians, the dimensions, the translation);
    - [TangentLayout]: where the tangent vector of [T] keeps the rotation and
      the translation coordinates;
    - [Logarithm], [Cholesky], [MatrixInverse]: [T::Logmap], the outcome of
      [Eigen::LLT] and [gtsam::inverse]. *)

From Stdlib Require Import String.
From Stdlib Require Import ZArith List Bool Arith Lia Ring.
From Stdlib Require Import Floats.
Import ListNotations.

Set Implicit Arguments.

(** ** Scalars: the operations of [double] the header uses *)

Class Scalar (D : Type) : Type := {
  d0 : D;                       (* 0.0 *)
  d1 : D;                       (* 1.0 *)
  dadd : D -> D -> D;
  dsub : D -> D -> D;
  dmul : D -> D -> D;
  ddiv : D -> D -> D;
  dopp : D -> D;
  dabs : D -> D;                (* abs, at its double overload *)
  dsqrt : D -> D;               (* std::sqrt *)
  dleb : D -> D -> bool;        (* <= *)
  disnan : D -> bool;           (* std::isnan *)
  disfinite : D -> bool         (* std::isfinite *)
}.

(** IEEE-754 binary64, by the executable specification of the Floats
    library: 53 bits of precision, exponents up to 1024.  There is a single
    NaN: the sign and the payload of a NaN are not modelled. *)
Definition double : Type := spec_float.

Definition SF_is_nan (x : double) : bool :=
  match x with S754_nan => true | _ => false end.

Definition SF_is_finite (x : double) : bool :=
  match x with S754_zero _ | S754_finite _ _ _ => true | _ => false end.

Definition double_of_Z (z : Z) : double := binary_normalize prec emax z 0 false.

#[export] Instance double_Scalar : Scalar double := {
  d0 := S754_zero false;
  d1 := double_of_Z 1;
  dadd := SFadd prec emax;
  dsub := SFsub prec emax;
  dmul := SFmul prec emax;
  ddiv := SFdiv prec emax;
  dopp := SFopp;
  dabs := SFabs;
  dsqrt := SFsqrt prec emax;
  dleb := SFleb;
  disnan := SF_is_nan;
  disfinite := SF_is_finite
}.

(** Exact integer arithmetic: a commutative ordered ring without NaN, in
    which the algebraic laws of the pose algebra hold on the nose. *)
#[export] Instance Z_Scalar : Scalar Z := {
  d0 := 0%Z;
  d1 := 1%Z;
  dadd := Z.add;
  dsub := Z.sub;
  dmul := Z.mul;
  ddiv := Z.div;
  dopp := Z.opp;
  dabs := Z.abs;
  dsqrt := Z.sqrt;
  dleb := Z.leb;
  disnan := fun _ => false;
  disfinite := fun _ => true
}.

(** ** Dense matrices ([Eigen::MatrixXd], [gtsam::Matrix], [gtsam::Vector]) *)

Section Matrices.
Context {D : Type} {SD : Scalar D}.

(** A dynamic matrix: its sizes and its coefficients.  Only the
    coefficients with [i < rows] and [j < cols] belong to the matrix. *)
Record Matrix : Type := mkMatrix {
  rows : nat;
  cols : nat;
  coef : nat -> nat -> D
}.

(** The sum [f 0 + f 1 + ... + f (n-1)], accumulated from left to right
    starting at the first term, as a scalar loop does. *)
Fixpoint dsum (f : nat -> D) (n : nat) : D :=
  match n with
  | O => d0
  | S m => match m with
           | O => f O
           | S _ => dadd (dsum f m) (f m)
           end
  end.

(** [Eigen::MatrixXd::Zero(r, c)] *)
Definition Zero (r c : nat) : Matrix := mkMatrix r c (fun _ _ => d0).

(** [Eigen::MatrixXd::Identity(r, c)] *)
Definition Identity (r c : nat) : Matrix :=
  mkMatrix r c (fun i j => if Nat.eqb i j then d1 else d0).

(** [A.transpose()] *)
Definition transpose (A : Matrix) : Matrix :=
  mkMatrix (cols A) (rows A) (fun i j => coef A j i).

(** [A * B] *)
Definition mmul (A B : Matrix) : Matrix :=
  mkMatrix (rows A) (cols B)
    (fun i j => dsum (fun k => dmul (coef A i k) (coef B k j)) (cols A)).

(** [A + B] *)
Definition madd (A B : Matrix) : Matrix :=
  mkMatrix (rows A) (cols A) (fun i j => dadd (coef A i j) (coef B i j)).

(** [A - B] *)
Definition msub (A B : Matrix) : Matrix :=
  mkMatrix (rows A) (cols A) (fun i j => dsub (coef A i j) (coef B i j)).

(** [-A] *)
Definition mopp (A : Matrix) : Matrix :=
  mkMatrix (rows A) (cols A) (fun i j => dopp (coef A i j)).

(** [A.block(i0, j0, p, q)]: the [p] by [q] block whose corner is [(i0, j0)]. *)
Definition block (A : Matrix) (i0 j0 p q : nat) : Matrix :=
  mkMatrix p q (fun i j => coef A (i0 + i) (j0 + j)).

(** [A.block(i0, j0, p, q) = B]: assignment into a block of [A]. *)
Definition set_block (A : Matrix) (i0 j0 : nat) (B : Matrix) : Matrix :=
  mkMatrix (rows A) (cols A)
    (fun i j =>
       if (i0 <=? i) && (i <? i0 + rows B) && (j0 <=? j) && (j <? j0 + cols B)
       then coef B (i - i0) (j - j0)
       else coef A i j).

(** [A.trace()] *)
Definition trace (A : Matrix) : D := dsum (fun i => coef A i i) (rows A).

(** [v.norm()] of a column vector: the square root of the sum of squares. *)
Definition vnorm (v : Matrix) : D :=
  dsqrt (dsum (fun i => dmul (coef v i 0) (coef v i 0)) (rows v)).

(** The 1 by 1 product [u.transpose() * M * v] read as a [double]. *)
Definition as_scalar (A : Matrix) : D := coef A 0 0.

(** A matrix from its rows, and back (for concrete inputs and outputs). *)
Definition of_rows (l : list (list D)) : Matrix :=
  mkMatrix (length l) (length (hd [] l))
    (fun i j => nth j (nth i l []) d0).

Definition to_rows (A : Matrix) : list (list D) :=
  map (fun i => map (fun j => coef A i j) (seq 0 (cols A))) (seq 0 (rows A)).

(** The quadratic form [x^T A x] and positive semi-definiteness. *)
Definition quad (A : Matrix) (x : nat -> D) : D :=
  dsum (fun i => dsum (fun j => dmul (dmul (x i) (coef A i j)) (x j)) (cols A))
       (rows A).

Definition psd (A : Matrix) : Prop :=
  forall x : nat -> D, dleb d0 (quad A x) = true.

(** The entry [(i, j)] of [H S H^T], written out as a double sum. *)
Definition congruence_entry (H S : Matrix) (i j : nat) : D :=
  dsum (fun k =>
          dmul (dsum (fun l => dmul (coef H i l) (coef S l k)) (cols H))
               (coef H j k))
       (cols S).

(** The summand [x i * H i l * S l k * H j k * x j] of [x^T (H S H^T) x]. *)
Definition congruence_term (H S : Matrix) (x : nat -> D) (i j k l : nat) : D :=
  dmul (dmul (dmul (dmul (x i) (coef H i l)) (coef S l k)) (coef H j k)) (x j).
End Matrices.

Arguments Matrix D : clear implicits.

(** ** The pose type [T] and the external numerical routines *)

(** What the header uses of [T] ([BOOST_CONCEPT_ASSERT(gtsam::IsLieGroup<T>)],
    instantiated at [gtsam::Pose2] and [gtsam::Pose3]).  The operations return
    the pose together with the Jacobians GTSAM writes into [Ha] and [Hb]. *)
Class LieGroup (D : Type) (T : Type) : Type := {
  T_default : T;                               (* T() *)
  getDim : nat;                                (* T().dimension *)
  getRotationDim : nat;                        (* T().rotation().dimension *)
  getTranslationDim : nat;                     (* T().translation().dimension *)
  T_compose : T -> T -> T * Matrix D * Matrix D;   (* a.compose(b, Ha, Hb) *)
  T_inverse : T -> T * Matrix D;                   (* a.inverse(Ha) *)
  T_between : T -> T -> T * Matrix D * Matrix D;   (* a.between(b, Ha, Hb) *)
  translation : T -> Matrix D                  (* a.translation(), a column *)
}.

(** [T::Logmap]: the logarithm map into the tangent space, a column vector. *)
Class Logarithm (D : Type) (T : Type) : Type :=
  Logmap : T -> Matrix D.

(** [Eigen::LLT<Eigen::MatrixXd>(M).info()]: [true] for [Success], [false]
    for [NumericalIssue]. *)
Class Cholesky (D : Type) : Type :=
  llt_success : Matrix D -> bool.

(** [gtsam::inverse(M)] *)
Class MatrixInverse (D : Type) : Type :=
  gtsam_inverse : Matrix D -> Matrix D.

(** The factors the constructors read: [prior()] of a [gtsam::PriorFactor<T>];
    [measured()] of a [gtsam::BetweenFactor<T>] and the [covariance()] of its
    Gaussian noise model. *)
Record PriorFactor (T : Type) : Type := mkPriorFactor {
  prior : T
}.

Record BetweenFactor (D T : Type) : Type := mkBetweenFactor {
  measured : T;
  noise_covariance : Matrix D
}.

(** Where the tangent vector of [T], and so each row and column of a
    covariance, keeps the rotation and the translation coordinates.
    [gtsam::Pose3] lists the rotation first (offsets 0 and 3);
    [gtsam::Pose2] lists the translation first, its tangent vector being
    (x, y, theta) (offsets 2 and 0). *)
Class TangentLayout (T : Type) : Type := {
  rotation_offset : nat;
  translation_offset : nat
}.

Section RotationBlock.
Context {D : Type} {SD : Scalar D} {T : Type} {LG : LieGroup D T}
        {TL : TangentLayout T}.

(** The rows and columns of a covariance that belong to the rotation. *)
Definition rotation_index (i : nat) : Prop :=
  rotation_offset <= i /\ i < rotation_offset + getRotationDim.

(** The trace of the rotation block of a covariance. *)
Definition rotation_block_trace (covar : Matrix D) : D :=
  trace (block covar rotation_offset rotation_offset getRotationDim getRotationDim).
End RotationBlock.

Arguments rotation_index {D} T {LG TL} i.
Arguments rotation_block_trace {D SD} T {LG TL} covar.

(** ** [struct PoseWithCovariance] *)

Module PoseWithCovariance.
Section Def.
Context {D : Type} {SD : Scalar D} {T : Type} {LG : LieGroup D T}.

Record t : Type := mk {
  pose : T;
  covariance_matrix : Matrix D
}.

(** [PoseWithCovariance()] *)
Definition default : t :=
  let dim := getDim in
  let covar := Zero dim dim in
  mk T_default covar.

(** [PoseWithCovariance(const gtsam::PriorFactor<T>&)] *)
Definition of_prior (prior_factor : PriorFactor T) : t :=
  let value := prior prior_factor in
  let dim := getDim in
  let covar := Zero dim dim in
  mk value covar.

(** The trace the constructor below tests,
    [covar.block(0,0,r_dim,r_dim).trace()]: the trace of the leading block
    of size [r_dim], whatever coordinates of the tangent vector sit there. *)
Definition leading_block_trace (covar : Matrix D) : D :=
  trace (block covar 0 0 getRotationDim getRotationDim).

(** [PoseWithCovariance(const gtsam::BetweenFactor<T>&)] *)
Definition of_between (between_factor : BetweenFactor D T) : t :=
  let covar := noise_covariance between_factor in
  let dim := getDim in
  let r_dim := getRotationDim in
  let t_dim := getTranslationDim in
  let covar :=
    if disnan (trace (block covar 0 0 r_dim r_dim)) then
      (* only keep translation part *)
      let temp := Zero dim dim in
      let temp := set_block temp r_dim r_dim (block covar r_dim r_dim t_dim t_dim) in
      temp
    else covar in
  mk (measured between_factor) covar.

(** [compose] *)
Definition compose (this other : t) : t :=
  let '(p, Ha, Hb) := T_compose (pose this) (pose other) in
  mk p (madd (mmul (mmul Ha (covariance_matrix this)) (transpose Ha))
             (mmul (mmul Hb (covariance_matrix other)) (transpose Hb))).

(** [inverse] *)
Definition inverse (this : t) : t :=
  let '(p, Ha) := T_inverse (pose this) in
  mk p (mmul (mmul Ha (covariance_matrix this)) (transpose Ha)).

(** [between], together with the messages it hands to the logger.  The one
    call of [log<WARNING>] in the body is commented out in the source. *)
Definition between_logged {CH : Cholesky D} (this other : t) : t * list string :=
  let '(p, Ha, Hb) := T_between (pose this) (pose other) in
  let out := mk p (msub (covariance_matrix other)
                        (mmul (mmul Ha (covariance_matrix this)) (transpose Ha))) in
  let pos_semi_def := llt_success (covariance_matrix out) in
  if negb pos_semi_def then
    let '(_, Ha, Hb) := T_between (pose other) (pose this) in
    let out := mk (pose out)
                  (msub (covariance_matrix this)
                        (mmul (mmul Ha (covariance_matrix other)) (transpose Ha))) in
    (* Check if positive semidef: the factorization is computed, its
       outcome is not looked at *)
    let lltCovar2 := llt_success (covariance_matrix out) in
    (out, [])
  else (out, []).

Definition between {CH : Cholesky D} (this other : t) : t :=
  fst (between_logged this other).

(** [norm]: calculate mahalanobis norm *)
Definition norm {LM : Logarithm D T} {MI : MatrixInverse D} (this : t) : D :=
  let log := Logmap (pose this) in
  dsqrt (as_scalar
           (mmul (mmul (transpose log) (gtsam_inverse (covariance_matrix this))) log)).
End Def.
Arguments t D T : clear implicits.
Arguments leading_block_trace {D SD} T {LG} covar.
End PoseWithCovariance.

(** ** [struct PoseWithDistance] *)

Module PoseWithDistance.
Section Def.
Context {D : Type} {SD : Scalar D} {T : Type} {LG : LieGroup D T}.

Record t : Type := mk {
  pose : T;
  distance : D
}.

(** [PoseWithDistance()] *)
Definition default : t := mk T_default d0.

(** [PoseWithDistance(const gtsam::PriorFactor<T>&)] *)
Definition of_prior (prior_factor : PriorFactor T) : t :=
  let value := prior prior_factor in
  mk value d0.

(** [compose] *)
Definition compose (this other : t) : t :=
  mk (fst (fst (T_compose (pose this) (pose other))))
     (dadd (distance this) (vnorm (translation (pose other)))).

(** [inverse] *)
Definition inverse (this : t) : t :=
  mk (fst (T_inverse (pose this))) (distance this).

(** [between]; [abs] is read at its [double] overload. *)
Definition between (this other : t) : t :=
  mk (fst (fst (T_between (pose this) (pose other))))
     (dabs (dsub (distance other) (distance this))).

(** [norm] *)
Definition norm {LM : Logarithm D T} (this : t) : D :=
  let log := Logmap (pose this) in
  ddiv (dsqrt (as_scalar (mmul (transpose log) log))) (distance this).
End Def.
Arguments t D T : clear implicits.
End PoseWithDistance.

(** ** A planar pose type for running the operations

    Rigid transforms of the plane stored as [gtsam::Pose2] stores them: the
    cosine and sine of the rotation and the two coordinates of the
    translation.  Product, inverse and adjoint are the ones of SE(2); the
    Jacobians are those GTSAM's Lie groups return ([compose]: the adjoint of
    the inverse of the right operand, and the identity; [inverse]: minus the
    adjoint; [between]: minus the adjoint of the inverse of the result, and
    the identity).  The dimensions are those of [Pose2]: 3, with a rotation
    of dimension 1 and a translation of dimension 2. *)

Module Pose2.
Section Def.
Context {D : Type} {SD : Scalar D}.

Record t : Type := mk { c : D; s : D; x : D; y : D }.

Definition identity : t := mk d1 d0 d0 d0.

Definition mul (p q : t) : t :=
  mk (dsub (dmul (c p) (c q)) (dmul (s p) (s q)))
     (dadd (dmul (s p) (c q)) (dmul (c p) (s q)))
     (dadd (x p) (dsub (dmul (c p) (x q)) (dmul (s p) (y q))))
     (dadd (y p) (dadd (dmul (s p) (x q)) (dmul (c p) (y q)))).

Definition inv (p : t) : t :=
  mk (c p) (dopp (s p))
     (dopp (dadd (dmul (c p) (x p)) (dmul (s p) (y p))))
     (dopp (dsub (dmul (c p) (y p)) (dmul (s p) (x p)))).

Definition AdjointMap (p : t) : Matrix D :=
  of_rows [ [c p; dopp (s p); y p];
            [s p; c p; dopp (x p)];
            [d0; d0; d1] ].

Definition compose (p q : t) : t * Matrix D * Matrix D :=
  (mul p q, AdjointMap (inv q), Identity 3 3).

Definition inverse (p : t) : t * Matrix D :=
  (inv p, mopp (AdjointMap p)).

Definition between (p q : t) : t * Matrix D * Matrix D :=
  let result := mul (inv p) q in
  (result, mopp (AdjointMap (inv result)), Identity 3 3).

(** A rotation is valid when its cosine and sine lie on the unit circle. *)
Definition valid (p : t) : Prop :=
  dadd (dmul (c p) (c p)) (dmul (s p) (s p)) = d1.
End Def.
Arguments t D : clear implicits.

#[global] Instance Pose2_LieGroup {D : Type} {SD : Scalar D} : LieGroup D (t D) := {
  T_default := identity;
  getDim := 3;
  getRotationDim := 1;
  getTranslationDim := 2;
  T_compose := compose;
  T_inverse := inverse;
  T_between := between;
  translation := fun p => of_rows [ [x p]; [y p] ]
}.

#[global] Instance Pose2_TangentLayout {D : Type} : TangentLayout (t D) := {
  rotation_offset := 2;
  translation_offset := 0
}.
End Pose2.

(** ** A spatial pose type for running the operations

    Rigid transforms of space stored as [gtsam::Pose3] stores them: a 3 by 3
    rotation matrix and a translation.  Product, inverse and adjoint are the
    ones of SE(3), the adjoint being [[R, 0], [[t]x R, R]]; the Jacobians are
    those of GTSAM's Lie groups, as for the planar poses.  The dimensions
    are those of [Pose3]: 6, with a rotation of dimension 3 listed first and
    a translation of dimension 3. *)

Module Pose3.
Section Def.
Context {D : Type} {SD : Scalar D}.

Record t : Type := mk { R : Matrix D; p : Matrix D }.

Definition identity : t := mk (Identity 3 3) (Zero 3 1).

Definition mul (a b : t) : t :=
  mk (mmul (R a) (R b)) (madd (p a) (mmul (R a) (p b))).

Definition inv (a : t) : t :=
  mk (transpose (R a)) (mopp (mmul (transpose (R a)) (p a))).

(** [skewSymmetric(x, y, z)] *)
Definition skewSymmetric (v : Matrix D) : Matrix D :=
  of_rows [ [d0; dopp (coef v 2 0); coef v 1 0];
            [coef v 2 0; d0; dopp (coef v 0 0)];
            [dopp (coef v 1 0); coef v 0 0; d0] ].

Definition AdjointMap (a : t) : Matrix D :=
  let A := mmul (skewSymmetric (p a)) (R a) in
  mkMatrix 6 6
    (fun i j =>
       if i <? 3 then (if j <? 3 then coef (R a) i j else d0)
       else (if j <? 3 then coef A (i - 3) j else coef (R a) (i - 3) (j - 3))).

Definition compose (a b : t) : t * Matrix D * Matrix D :=
  (mul a b, AdjointMap (inv b), Identity 6 6).

Definition inverse (a : t) : t * Matrix D :=
  (inv a, mopp (AdjointMap a)).

Definition between (a b : t) : t * Matrix D * Matrix D :=
  let result := mul (inv a) b in
  (result, mopp (AdjointMap (inv result)), Identity 6 6).
End Def.
Arguments t D : clear implicits.

#[global] Instance Pose3_LieGroup {D : Type} {SD : Scalar D} : LieGroup D (t D) := {
  T_default := identity;
  getDim := 6;
  getRotationDim := 3;
  getTranslationDim := 3;
  T_compose := compose;
  T_inverse := inverse;
  T_between := between;
  translation := p
}.

#[global] Instance Pose3_TangentLayout {D : Type} : TangentLayout (t D) := {
  rotation_offset := 0;
  translation_offset := 3
}.
End Pose3.

(** ** The unblocked Cholesky factorization of Eigen

    [Eigen::internal::llt_inplace<Scalar, Lower>::unblocked], which
    [Eigen::LLT] runs on matrices of fewer than 32 rows: at step [k] the
    pivot is [x = A(k,k) - |L(k, 0..k)|^2]; the factorization stops with
    [NumericalIssue] when [x <= 0], otherwise [L(k,k) = sqrt x] and the
    column below the pivot is updated. *)

Section EigenLLT.
Context {D : Type} {SD : Scalar D}.

Fixpoint llt_unblocked (steps k n : nat) (L : nat -> nat -> D) : bool :=
  match steps with
  | O => true
  | S steps' =>
      let x := if Nat.eqb k 0 then L k k
               else dsub (L k k) (dsum (fun j => dmul (L k j) (L k j)) k) in
      if dleb x d0 then false
      else
        let r := dsqrt x in
        let L' := fun i j =>
          if Nat.eqb j k then
            if Nat.eqb i k then r
            else if (k <? i) && (i <? n) then
              ddiv (if Nat.eqb k 0 then L i k
                    else dsub (L i k) (dsum (fun j' => dmul (L i j') (L k j')) k))
                   r
            else L i j
          else L i j in
        llt_unblocked steps' (S k) n L'
  end.

Definition eigen_llt (A : Matrix D) : bool :=
  llt_unblocked (rows A) 0 (rows A) (coef A).
End EigenLLT.

#[export] Instance Eigen_Cholesky {D : Type} {SD : Scalar D} : Cholesky D := eigen_llt.

(** ** The methods on objects in memory

    The methods above are written on values.  The C++ methods take [this]
    and [other] by reference and build a local object [out]; to state what
    they do to their operands they are written once more on a memory of
    objects, addressed by position.  [this] and [other] may be the same
    address.  A program returns its result and the memory it leaves, or
    [None] when it reads or writes an address that holds no object. *)

Section Memory.
Variable X : Type.

Definition Mem : Type := list X.
Definition Prog (R : Type) : Type := Mem -> option (R * Mem).

Definition ret {R} (r : R) : Prog R := fun m => Some (r, m).

Definition bind {R S} (p : Prog R) (k : R -> Prog S) : Prog S :=
  fun m => match p m with
           | Some (r, m') => k r m'
           | None => None
           end.

(** A new object at the first free address. *)
Definition alloc (x : X) : Prog nat :=
  fun m => Some (length m, m ++ [x]).

Definition load (a : nat) : Prog X :=
  fun m => match nth_error m a with
           | Some x => Some (x, m)
           | None => None
           end.

Fixpoint update (a : nat) (x : X) (m : Mem) : Mem :=
  match m, a with
  | [], _ => []
  | _ :: m', O => x :: m'
  | y :: m', S a' => y :: update a' x m'
  end.

Definition store (a : nat) (x : X) : Prog unit :=
  fun m => if a <? length m then Some (tt, update a x m) else None.

(** A call leaves every object that was in memory as it was. *)
Definition unchanged (m m' : Mem) : Prop :=
  forall a x, nth_error m a = Some x -> nth_error m' a = Some x.

(** The call returns [r] and mutates no existing object. *)
Definition returns (R : Type) (p : Prog R) (m : Mem) (r : R) : Prop :=
  exists m', p m = Some (r, m') /\ unchanged m m'.

(** The call returns the object [r], built at an address that was free
    before the call, and mutates no existing object. *)
Definition returns_fresh (p : Prog X) (m : Mem) (r : X) : Prop :=
  exists m', p m = Some (r, m') /\ unchanged m m' /\
             nth_error m (length m) = None /\
             nth_error m' (length m) = Some r.
End Memory.

Arguments ret {X R} r.
Arguments bind {X R S} p k.
Arguments alloc {X} x.
Arguments load {X} a.
Arguments store {X} a x.

Notation "x <- p ;; k" := (bind p (fun x => k))
  (at level 61, p at next level, right associativity).
Notation "p ;;; k" := (bind p (fun _ => k))
  (at level 61, right associativity).

Module CovarianceMethods.
Import PoseWithCovariance.
Section Def.
Context {D : Type} {SD : Scalar D} {T : Type} {LG : LieGroup D T}.

Definition set_pose (a : nat) (p : T) : Prog (t D T) unit :=
  o <- load a ;; store a (mk p (covariance_matrix o)).

Definition set_covariance_matrix (a : nat) (c : Matrix D) : Prog (t D T) unit :=
  o <- load a ;; store a (mk (pose o) c).

Definition compose (this other : nat) : Prog (t D T) (t D T) :=
  out <- alloc default ;;
  a <- load this ;; b <- load other ;;
  let '(p, Ha, Hb) := T_compose (pose a) (pose b) in
  set_pose out p ;;;
  a <- load this ;; b <- load other ;;
  set_covariance_matrix out
    (madd (mmul (mmul Ha (covariance_matrix a)) (transpose Ha))
          (mmul (mmul Hb (covariance_matrix b)) (transpose Hb))) ;;;
  load out.

Definition inverse (this : nat) : Prog (t D T) (t D T) :=
  out <- alloc default ;;
  a <- load this ;;
  let '(p, Ha) := T_inverse (pose a) in
  set_pose out p ;;;
  a <- load this ;;
  set_covariance_matrix out
    (mmul (mmul Ha (covariance_matrix a)) (transpose Ha)) ;;;
  load out.

Definition between {CH : Cholesky D} (this other : nat) : Prog (t D T) (t D T) :=
  out <- alloc default ;;
  a <- load this ;; b <- load other ;;
  let '(p, Ha, Hb) := T_between (pose a) (pose b) in
  set_pose out p ;;;
  a <- load this ;; b <- load other ;;
  set_covariance_matrix out
    (msub (covariance_matrix b)
          (mmul (mmul Ha (covariance_matrix a)) (transpose Ha))) ;;;
  o <- load out ;;
  let pos_semi_def := llt_success (covariance_matrix o) in
  if negb pos_semi_def then
    a <- load this ;; b <- load other ;;
    let '(_, Ha, Hb) := T_between (pose b) (pose a) in
    set_covariance_matrix out
      (msub (covariance_matrix a)
            (mmul (mmul Ha (covariance_matrix b)) (transpose Ha))) ;;;
    load out
  else load out.

Definition norm {LM : Logarithm D T} {MI : MatrixInverse D} (this : nat)
  : Prog (t D T) D :=
  a <- load this ;;
  let log := Logmap (pose a) in
  a <- load this ;;
  ret (dsqrt (as_scalar
         (mmul (mmul (transpose log) (gtsam_inverse (covariance_matrix a))) log))).
End Def.
End CovarianceMethods.

Module DistanceMethods.
Import PoseWithDistance.
Section Def.
Context {D : Type} {SD : Scalar D} {T : Type} {LG : LieGroup D T}.

Definition set_pose (a : nat) (p : T) : Prog (t D T) unit :=
  o <- load a ;; store a (mk p (distance o)).

Definition set_distance (a : nat) (d : D) : Prog (t D T) unit :=
  o <- load a ;; store a (mk (pose o) d).

Definition compose (this other : nat) : Prog (t D T) (t D T) :=
  out <- alloc default ;;
  a <- load this ;; b <- load other ;;
  set_pose out (fst (fst (T_compose (pose a) (pose b)))) ;;;
  a <- load this ;; b <- load other ;;
  set_distance out (dadd (distance a) (vnorm (translation (pose b)))) ;;;
  load out.

Definition inverse (this : nat) : Prog (t D T) (t D T) :=
  out <- alloc default ;;
  a <- load this ;;
  set_pose out (fst (T_inverse (pose a))) ;;;
  a <- load this ;;
  set_distance out (distance a) ;;;
  load out.

Definition between (this other : nat) : Prog (t D T) (t D T) :=
  out <- alloc default ;;
  a <- load this ;; b <- load other ;;
  set_pose out (fst (fst (T_between (pose a) (pose b)))) ;;;
  a <- load this ;; b <- load other ;;
  set_distance out (dabs (dsub (distance b) (distance a))) ;;;
  load out.

Definition norm {LM : Logarithm D T} (this : nat) : Prog (t D T) D :=
  a <- load this ;;
  let log := Logmap (pose a) in
  a <- load this ;;
  ret (ddiv (dsqrt (as_scalar (mmul (transpose log) log))) (distance a)).
End Def.
End DistanceMethods.

(** ** The laws the algebraic properties rest on *)

(** Arithmetic without rounding: the scalars form a commutative ring and
    sums of non-negative scalars are non-negative. *)
Record exact_arithmetic (D : Type) (SD : Scalar D) : Prop := {
  scalar_ring : ring_theory d0 d1 dadd dmul dsub dopp (@eq D);
  nonneg_add : forall a b : D,
    dleb d0 a = true -> dleb d0 b = true -> dleb d0 (dadd a b) = true
}.

Section Laws.
Context {D : Type} {SD : Scalar D} {T : Type} {LG : LieGroup D T}.

(** The pose results alone, as the overloads without Jacobians return them. *)
Definition pose_compose (a b : T) : T := fst (fst (T_compose a b)).
Definition pose_inverse (a : T) : T := fst (T_inverse a).
Definition pose_between (a b : T) : T := fst (fst (T_between a b)).

(** The poses form a group under composition, [T()] being the identity and
    [a.between(b)] being [a.inverse() * b]; inverses are inverses on the
    poses that satisfy [valid] (those whose rotation is a rotation). *)
Record group_laws (valid : T -> Prop) : Prop := {
  between_inverse_compose :
    forall a b, pose_between a b = pose_compose (pose_inverse a) b;
  compose_assoc :
    forall a b c,
      pose_compose (pose_compose a b) c = pose_compose a (pose_compose b c);
  compose_identity_l : forall a, pose_compose T_default a = a;
  compose_inverse_l :
    forall a, valid a -> pose_compose (pose_inverse a) a = T_default;
  compose_inverse_r :
    forall a, valid a -> pose_compose a (pose_inverse a) = T_default
}.

(** The Jacobians of composition and inversion are [getDim] by [getDim]. *)
Record square_jacobians : Prop := {
  compose_Ha_rows : forall a b, rows (snd (fst (T_compose a b))) = getDim;
  compose_Ha_cols : forall a b, cols (snd (fst (T_compose a b))) = getDim;
  compose_Hb_rows : forall a b, rows (snd (T_compose a b)) = getDim;
  compose_Hb_cols : forall a b, cols (snd (T_compose a b)) = getDim;
  inverse_H_rows : forall a, rows (snd (T_inverse a)) = getDim;
  inverse_H_cols : forall a, cols (snd (T_inverse a)) = getDim
}.

(** The claim of the specification about the second factorization: when
    the covariance of the fallback does not factor either, a diagnostic is
    raised. *)
Definition warns_when_fallback_fails (CH : Cholesky D) : Prop :=
  forall A B : PoseWithCovariance.t D T,
    let Ha := snd (fst (T_between (PoseWithCovariance.pose A)
                                  (PoseWithCovariance.pose B))) in
    llt_success
      (msub (PoseWithCovariance.covariance_matrix B)
            (mmul (mmul Ha (PoseWithCovariance.covariance_matrix A))
                  (transpose Ha))) = false ->
    llt_success
      (PoseWithCovariance.covariance_matrix (PoseWithCovariance.between A B)) = false ->
    snd (PoseWithCovariance.between_logged A B) <> [].
End Laws.

(** ** Concrete inputs *)

Definition dnan : double := S754_nan.
Definition dinf : double := S754_infinity false.

(** A measurement of the identity in space whose variance about the first
    rotation axis is infinite; the rows and columns are ordered as the
    tangent vector of [Pose3]: three rotations, then three translations. *)
Definition infinite_rotation_factor : BetweenFactor double (Pose3.t double) :=
  mkBetweenFactor Pose3.identity
    (of_rows [ [dinf; d0; d0; d0; d0; d0];
               [d0; d1; d0; d0; d0; d0];
               [d0; d0; d1; d0; d0; d0];
               [d0; d0; d0; double_of_Z 2; d0; d0];
               [d0; d0; d0; d0; double_of_Z 3; d0];
               [d0; d0; d0; d0; d0; double_of_Z 4] ]).

(** A measurement of the identity in space whose variance about the second
    rotation axis is NaN, with rotation and translation correlated. *)
Definition nan_rotation_factor : BetweenFactor double (Pose3.t double) :=
  mkBetweenFactor Pose3.identity
    (of_rows [ [d1; d0; d0; double_of_Z 5; d0; d0];
               [d0; dnan; d0; d0; d0; d0];
               [d0; d0; d1; d0; d0; double_of_Z 7];
               [double_of_Z 5; d0; d0; double_of_Z 2; d1; d0];
               [d0; d0; d0; d1; double_of_Z 3; d0];
               [d0; d0; double_of_Z 7; d0; d0; double_of_Z 4] ]).

(** A planar measurement of the identity whose angle variance (the last
    coordinate of the tangent vector of [Pose2]) is NaN. *)
Definition nan_angle_factor : BetweenFactor double (Pose2.t double) :=
  mkBetweenFactor Pose2.identity
    (of_rows [ [d1; d0; d0];
               [d0; double_of_Z 2; d0];
               [d0; d0; dnan] ]).

(** Two poses with distance: the start, one unit along the path, and a step
    of translation (3, 4) whose own stored distance is 10. *)
Definition walk_start : PoseWithDistance.t double (Pose2.t double) :=
  PoseWithDistance.mk Pose2.identity d1.

Definition walk_step : PoseWithDistance.t double (Pose2.t double) :=
  PoseWithDistance.mk (Pose2.mk d1 d0 (double_of_Z 3) (double_of_Z 4))
                      (double_of_Z 10).

(** A binary64 value that is a zero or NaN. *)
Definition zero_or_nan (x : double) : Prop :=
  match x with
  | S754_zero _ | S754_nan => True
  | _ => False
  end.

(** Two estimates of the identity pose; each is certain where the other is
    not, so that neither covariance dominates the other. *)
Definition estimate_x : PoseWithCovariance.t double (Pose2.t double) :=
  PoseWithCovariance.mk Pose2.identity
    (of_rows [ [d1; d0; d0]; [d0; d0; d0]; [d0; d0; d0] ]).

Definition estimate_y : PoseWithCovariance.t double (Pose2.t double) :=
  PoseWithCovariance.mk Pose2.identity
    (of_rows [ [d0; d0; d0]; [d0; d1; d0]; [d0; d0; d0] ]).

(** What [between] returns for them: a pose with an indefinite covariance. *)
Definition indefinite_estimate : PoseWithCovariance.t double (Pose2.t double) :=
  PoseWithCovariance.between estimate_x estimate_y.

(** The second unit vector. *)
Definition unit_y {D : Type} {SD : Scalar D} (i : nat) : D :=
  if Nat.eqb i 1 then d1 else d0.

(** Poses with integer entries: a quarter turn followed by the translation
    (2, 3), with covariance diag(1, 2, 3); and a half turn followed by the
    translation (-1, 4), with covariance diag(5, 0, 1). *)
Definition quarter_turn : PoseWithCovariance.t Z (Pose2.t Z) :=
  PoseWithCovariance.mk (Pose2.mk 0%Z 1%Z 2%Z 3%Z)
    (of_rows [ [1; 0; 0]; [0; 2; 0]; [0; 0; 3] ]%Z).

Definition half_turn : PoseWithCovariance.t Z (Pose2.t Z) :=
  PoseWithCovariance.mk (Pose2.mk (-1)%Z 0%Z (-1)%Z 4%Z)
    (of_rows [ [5; 0; 0]; [0; 0; 0]; [0; 0; 1] ]%Z).

(** Memories holding the two estimates and the two walks. *)
Definition two_estimates : Mem (PoseWithCovariance.t double (Pose2.t double)) :=
  [estimate_x; estimate_y].

Definition two_walks : Mem (PoseWithDistance.t double (Pose2.t double)) :=
  [walk_start; walk_step].

(** The logarithm of a planar pose that does not rotate, (x, y, 0), and the
    inverse of a diagonal matrix: enough of [Logmap] and [gtsam::inverse] to
    run [norm] on the inputs above. *)
Definition translation_log : Logarithm double (Pose2.t double) :=
  fun p => of_rows [ [Pose2.x p]; [Pose2.y p]; [d0] ].

Definition diagonal_inverse : MatrixInverse double :=
  fun M => mkMatrix (rows M) (cols M)
             (fun i j => if Nat.eqb i j then ddiv d1 (coef M i i) else d0).

(** ** Shapes and signs of covariance matrices *)

Section Shapes.
Context {D : Type} {SD : Scalar D}.

(** The product [H * S] is well formed: Eigen asks that the inner sizes
    agree. *)
Definition conformable (H S : Matrix D) : Prop := cols H = rows S.

(** A square matrix equal to its transpose. *)
Definition symmetric (A : Matrix D) : Prop :=
  rows A = cols A /\
  forall i j, i < rows A -> j < rows A -> coef A i j = coef A j i.

(** Negative semi-definiteness: [x^T A x <= 0] for every [x]. *)
Definition nsd (A : Matrix D) : Prop :=
  forall x : nat -> D, dleb (quad A x) d0 = true.
End Shapes.

(** A pose known exactly, as the constructor from a prior factor builds it. *)
Definition certain_quarter_turn : PoseWithCovariance.t Z (Pose2.t Z) :=
  PoseWithCovariance.of_prior (mkPriorFactor (Pose2.mk 0%Z 1%Z 2%Z 3%Z)).

(** Poses with distance over the integers: a quarter turn reached after 7
    units, and a half turn whose translation (3, -4) has length 5. *)
Definition lattice_quarter : PoseWithDistance.t Z (Pose2.t Z) :=
  PoseWithDistance.mk (Pose2.mk 0%Z 1%Z 2%Z 3%Z) 7%Z.

Definition lattice_half : PoseWithDistance.t Z (Pose2.t Z) :=
  PoseWithDistance.mk (Pose2.mk (-1)%Z 0%Z 3%Z (-4)%Z) 40%Z.

(** * Properties *)

Import PoseWithCovariance.

(** ** Composition *)

(** C1: [compose(A, B)] has the pose returned by the composition of the two
    poses and the covariance [Ha Cov_A Ha^T + Hb Cov_B Hb^T], entry by entry,
    where [Ha] and [Hb] are the Jacobians that composition returns at
    [A.pose] and [B.pose]. *)
Theorem compose_first_order_propagation :
  forall (D : Type) (SD : Scalar D) (T : Type) (LG : LieGroup D T)
         (A B : PoseWithCovariance.t D T),
    let p := fst (fst (T_compose (pose A) (pose B))) in
    let Ha := snd (fst (T_compose (pose A) (pose B))) in
    let Hb := snd (T_compose (pose A) (pose B)) in
    pose (compose A B) = p /\
    rows (covariance_matrix (compose A B)) = rows Ha /\
    cols (covariance_matrix (compose A B)) = rows Ha /\
    forall i j,
      coef (covariance_matrix (compose A B)) i j =
      dadd (congruence_entry Ha (covariance_matrix A) i j)
           (congruence_entry Hb (covariance_matrix B) i j).
Proof.
  intros D SD T LG A B. unfold compose.
  destruct (T_compose (pose A) (pose B)) as [[p Ha] Hb]. cbn.
  repeat split.
Qed.

(** ** The constructor from a between factor *)

(** The claim as the specification words it: a non-finite trace of the
    rotation block zeroes the rotation rows and columns. *)
Definition zeroes_rotation_when_not_finite
  (D : Type) (SD : Scalar D) (T : Type) (LG : LieGroup D T)
  (TL : TangentLayout T) : Prop :=
  forall f : BetweenFactor D T,
    disfinite (rotation_block_trace T (noise_covariance f)) = false ->
    forall i j, rotation_index T i \/ rotation_index T j ->
      coef (covariance_matrix (of_between f)) i j = d0.

(** C3, as stated, fails: the constructor tests [std::isnan], and an infinite
    trace is not NaN.  At [Pose3], where the block the constructor tests is
    the rotation block, the covariance of [infinite_rotation_factor] comes
    out unmodified, with its infinite rotation variance. *)
Lemma infinite_rotation_block_is_kept :
  disfinite (rotation_block_trace (Pose3.t double)
               (noise_covariance infinite_rotation_factor)) = false /\
  coef (covariance_matrix (of_between infinite_rotation_factor)) 0 0 = dinf /\
  ~ zeroes_rotation_when_not_finite double_Scalar Pose3.Pose3_LieGroup
      Pose3.Pose3_TangentLayout.
Proof.
  split; [ reflexivity | split; [ reflexivity | ] ].
  intro H.
  assert (Hrot : rotation_index (Pose3.t double) 0) by (split; cbn; lia).
  specialize (H infinite_rotation_factor eq_refl 0 0 (or_introl Hrot)).
  discriminate H.
Qed.

(** What the constructor does, by position: when the trace of the leading
    block of size [getRotationDim] is NaN, the first [getRotationDim] rows
    and columns come out zero and the block of size [getTranslationDim]
    that follows is kept; otherwise the covariance is the input's. *)
Lemma of_between_leading_block :
  forall (D : Type) (SD : Scalar D) (T : Type) (LG : LieGroup D T)
         (f : BetweenFactor D T),
    pose (of_between f) = measured f /\
    (disnan (leading_block_trace T (noise_covariance f)) = true ->
       rows (covariance_matrix (of_between f)) = getDim /\
       cols (covariance_matrix (of_between f)) = getDim /\
       (forall i j, i < getRotationDim \/ j < getRotationDim ->
          coef (covariance_matrix (of_between f)) i j = d0) /\
       (forall i j, i < getTranslationDim -> j < getTranslationDim ->
          coef (covariance_matrix (of_between f))
               (getRotationDim + i) (getRotationDim + j) =
          coef (noise_covariance f) (getRotationDim + i) (getRotationDim + j))) /\
    (disnan (leading_block_trace T (noise_covariance f)) = false ->
       covariance_matrix (of_between f) = noise_covariance f).
Proof.
  intros D SD T LG f. unfold of_between, leading_block_trace.
  split; [reflexivity | split]; intro Hnan; rewrite Hnan;
    cbn -[Nat.ltb Nat.leb Nat.sub Nat.add].
  - repeat split.
    + intros i j Hij.
      destruct (getRotationDim <=? i) eqn:Hi; [ | reflexivity].
      destruct (getRotationDim <=? j) eqn:Hj;
        [ | now rewrite !andb_false_r ].
      apply Nat.leb_le in Hi. apply Nat.leb_le in Hj. lia.
    + intros i j Hi Hj.
      assert (E1 : (getRotationDim <=? getRotationDim + i) = true)
        by (apply Nat.leb_le; lia).
      assert (E2 : (getRotationDim + i <? getRotationDim + getTranslationDim) = true)
        by (apply Nat.ltb_lt; lia).
      assert (E3 : (getRotationDim <=? getRotationDim + j) = true)
        by (apply Nat.leb_le; lia).
      assert (E4 : (getRotationDim + j <? getRotationDim + getTranslationDim) = true)
        by (apply Nat.ltb_lt; lia).
      rewrite E1, E2, E3, E4. cbn -[Nat.sub Nat.add].
      replace (getRotationDim + i - getRotationDim) with i by lia.
      replace (getRotationDim + j - getRotationDim) with j by lia.
      reflexivity.
  - reflexivity.
Qed.


(** C3, amended: for a pose type whose tangent vector lists the rotation
    first and the translation right after it (as [gtsam::Pose3] does), when
    the trace of the rotation block is NaN the constructed covariance is
    [getDim] by [getDim], its rotation rows and columns are exactly zero and
    its translation block is the one of the input; when the trace is not
    NaN (an infinite trace included) the covariance is the input's,
    unmodified.  The pose is the measured one in both cases. *)
Theorem of_between_nan_rotation_block :
  forall (D : Type) (SD : Scalar D) (T : Type) (LG : LieGroup D T)
         (TL : TangentLayout T),
    @rotation_offset T TL = 0 ->
    @translation_offset T TL = getRotationDim ->
    forall f : BetweenFactor D T,
      pose (of_between f) = measured f /\
      (disnan (rotation_block_trace T (noise_covariance f)) = true ->
         rows (covariance_matrix (of_between f)) = getDim /\
         cols (covariance_matrix (of_between f)) = getDim /\
         (forall i j, rotation_index T i \/ rotation_index T j ->
            coef (covariance_matrix (of_between f)) i j = d0) /\
         (forall i j, i < getTranslationDim -> j < getTranslationDim ->
            coef (covariance_matrix (of_between f))
                 (translation_offset + i) (translation_offset + j) =
            coef (noise_covariance f)
                 (translation_offset + i) (translation_offset + j))) /\
      (disnan (rotation_block_trace T (noise_covariance f)) = false ->
         covariance_matrix (of_between f) = noise_covariance f).
Proof.
  intros D SD T LG TL Hrot Htr f.
  unfold rotation_block_trace, rotation_index. rewrite Hrot, Htr.
  destruct (@of_between_leading_block D SD T LG f) as (Hpose & Hnan & Hkeep).
  unfold leading_block_trace in Hnan, Hkeep.
  split; [ exact Hpose | split ]; [ | exact Hkeep ].
  intro E. destruct (Hnan E) as (Hr & Hc & Hz & Ht).
  repeat split; try assumption.
  intros i j [ [_ Hi] | [_ Hj] ]; apply Hz; [ left | right ]; assumption.
Qed.

(** At [nan_rotation_factor] the rotation block with its NaN and the
    correlations of rotation with translation are dropped, and the
    translation block [[2, 1, 0], [1, 3, 0], [0, 0, 4]] is kept. *)
Lemma of_between_nan_rotation_block_witness :
  disnan (rotation_block_trace (Pose3.t double)
            (noise_covariance nan_rotation_factor)) = true /\
  to_rows (covariance_matrix (of_between nan_rotation_factor)) =
    [ [d0; d0; d0; d0; d0; d0];
      [d0; d0; d0; d0; d0; d0];
      [d0; d0; d0; d0; d0; d0];
      [d0; d0; d0; double_of_Z 2; d1; d0];
      [d0; d0; d0; d1; double_of_Z 3; d0];
      [d0; d0; d0; d0; d0; double_of_Z 4] ].
Proof.
  pose proof (@of_between_nan_rotation_block double _ (Pose3.t double) _ _
                eq_refl eq_refl nan_rotation_factor) as [_ [H _]].
  split; [ reflexivity | ].
  specialize (H eq_refl). destruct H as [Hr [Hc _]].
  unfold to_rows. rewrite Hr, Hc. reflexivity.
Defined.

(** At the planar poses the leading block is the variance of x, not of the
    angle: the NaN angle variance of [nan_angle_factor] is not looked at and
    stays in the covariance. *)
Remark planar_angle_variance_is_not_tested :
  disnan (rotation_block_trace (Pose2.t double)
            (noise_covariance nan_angle_factor)) = true /\
  disnan (leading_block_trace (Pose2.t double)
            (noise_covariance nan_angle_factor)) = false /\
  coef (covariance_matrix (of_between nan_angle_factor)) 2 2 = dnan.
Proof. repeat split. Qed.


(** ** The consistency norms *)

(** C4: [norm] of a pose with covariance is the Mahalanobis norm
    [sqrt(log^T Cov^-1 log)] of [log = Logmap(pose)], the quadratic form
    written out as a double sum over the entries of [gtsam::inverse] of the
    pose's own covariance; [norm] of a pose with distance is the Euclidean
    norm of [log] divided by the stored distance. *)
Theorem norm_is_mahalanobis_or_scaled_euclidean :
  forall (D : Type) (SD : Scalar D) (T : Type) (LG : LieGroup D T)
         (LM : Logarithm D T) (MI : MatrixInverse D),
    (forall A : PoseWithCovariance.t D T,
       let log := Logmap (pose A) in
       let P := gtsam_inverse (covariance_matrix A) in
       norm A =
       dsqrt (dsum (fun j =>
                      dmul (dsum (fun i => dmul (coef log i 0) (coef P i j))
                                 (rows log))
                           (coef log j 0))
                   (cols P))) /\
    (forall A : PoseWithDistance.t D T,
       PoseWithDistance.norm A =
       ddiv (vnorm (Logmap (PoseWithDistance.pose A))) (PoseWithDistance.distance A)).
Proof.
  intros D SD T LG LM MI. split; intro A.
  - unfold norm, as_scalar, mmul, transpose. cbn. reflexivity.
  - unfold PoseWithDistance.norm, vnorm, as_scalar, mmul, transpose. cbn.
    reflexivity.
Qed.


(** ** Accumulated distance *)

(** C9: the distance of [compose(A, B)] is [A.distance] plus the Euclidean
    norm of the translation of [B.pose]; [inverse] keeps the distance;
    [between(A, B)] has distance [|B.distance - A.distance|].  The distance
    stored in [B] plays no part in [compose]: composing [walk_start]
    (distance 1) with [walk_step] (translation (3, 4), distance 10) gives 6,
    not 11. *)
Theorem distance_bookkeeping :
  (forall (D : Type) (SD : Scalar D) (T : Type) (LG : LieGroup D T)
          (A B : PoseWithDistance.t D T),
     let tr := translation (PoseWithDistance.pose B) in
     PoseWithDistance.distance (PoseWithDistance.compose A B) =
       dadd (PoseWithDistance.distance A)
            (dsqrt (dsum (fun i => dmul (coef tr i 0) (coef tr i 0)) (rows tr))) /\
     PoseWithDistance.distance (PoseWithDistance.inverse A) =
       PoseWithDistance.distance A /\
     PoseWithDistance.distance (PoseWithDistance.between A B) =
       dabs (dsub (PoseWithDistance.distance B) (PoseWithDistance.distance A))) /\
  PoseWithDistance.distance (PoseWithDistance.compose walk_start walk_step) =
    double_of_Z 6 /\
  dadd (PoseWithDistance.distance walk_start) (PoseWithDistance.distance walk_step) =
    double_of_Z 11.
Proof.
  split; [ | split; vm_compute; reflexivity ].
  intros D SD T LG A B. cbn. repeat split.
Qed.

(** ** The norms have no guard *)

Lemma div_by_zero_not_finite (x : double) :
  SF_is_finite (SFdiv prec emax x (S754_zero false)) = false.
Proof. destruct x as [ [ | ] | [ | ] | | [ | ] m e ]; reflexivity. Qed.

Lemma zero_times_zero_or_nan (x : double) :
  zero_or_nan (SFmul prec emax (S754_zero false) x).
Proof. destruct x; exact I. Qed.

Lemma zero_or_nan_add (x y : double) :
  zero_or_nan x -> zero_or_nan y -> zero_or_nan (SFadd prec emax x y).
Proof.
  destruct x as [ [ | ] | | | ]; destruct y as [ [ | ] | | | ];
    cbn; intros Hx Hy; try contradiction; exact I.
Qed.

Lemma zero_row_sum (f : nat -> double) (n : nat) :
  zero_or_nan (dsum (fun k => dmul d0 (f k)) n).
Proof.
  induction n as [ | n IH ]; [ exact I | ].
  destruct n as [ | n ]; [ apply zero_times_zero_or_nan | ].
  change (zero_or_nan
            (SFadd prec emax (dsum (fun k => dmul d0 (f k)) (S n))
                             (SFmul prec emax (S754_zero false) (f (S n))))).
  apply zero_or_nan_add; [ exact IH | apply zero_times_zero_or_nan ].
Qed.

(** C10: neither norm checks its divisor.  [PoseWithDistance::norm] divides
    by the stored distance whatever it is, and the constructor from a prior
    factor stores distance 0, so that in binary64 the norm of such a pose is
    never a finite number; [PoseWithCovariance::norm] hands the stored
    covariance to [gtsam::inverse] whatever it is, and the default and the
    prior-factor constructors store the all-zero matrix, which has no
    inverse (no product of it with a matrix has an entry equal to 1). *)
Theorem norm_has_no_guard :
  (forall (D : Type) (SD : Scalar D) (T : Type) (LG : LieGroup D T)
          (LM : Logarithm D T) (p : PriorFactor T),
     PoseWithDistance.distance (PoseWithDistance.of_prior p) = d0 /\
     PoseWithDistance.norm (PoseWithDistance.of_prior p) =
       ddiv (vnorm (Logmap (prior p))) d0) /\
  (forall (T : Type) (LG : LieGroup double T) (LM : Logarithm double T)
          (p : PriorFactor T),
     disfinite (PoseWithDistance.norm (PoseWithDistance.of_prior p)) = false) /\
  (forall (D : Type) (SD : Scalar D) (T : Type) (LG : LieGroup D T)
          (LM : Logarithm D T) (MI : MatrixInverse D) (p : PriorFactor T),
     covariance_matrix (of_prior p) = Zero getDim getDim /\
     covariance_matrix (default (T := T)) = Zero getDim getDim /\
     norm (of_prior p) =
       dsqrt (as_scalar
                (mmul (mmul (transpose (Logmap (prior p)))
                            (gtsam_inverse (Zero getDim getDim)))
                      (Logmap (prior p))))) /\
  (forall (r c : nat) (M : Matrix double) (i j : nat),
     coef (mmul (Zero r c) M) i j <> d1).
Proof.
  repeat split.
  - intros T LG LM p. unfold PoseWithDistance.norm. cbn.
    apply div_by_zero_not_finite.
  - intros r c M i j H.
    pose proof (zero_row_sum (fun k => coef M k j) c) as Hz.
    cbv beta in Hz.
    change (coef (mmul (Zero r c) M) i j)
      with (dsum (fun k => dmul d0 (coef M k j)) c) in H.
    rewrite H in Hz. exact Hz.
Qed.


(** ** Sums and quadratic forms in exact arithmetic *)

Section Algebra.
Context {D : Type} {SD : Scalar D}.
Hypothesis EA : exact_arithmetic SD.

Add Ring scalar_ring_tactic : (scalar_ring EA).

Lemma dsum_S (f : nat -> D) (n : nat) :
  dsum f (S n) = dadd (dsum f n) (f n).
Proof. destruct n; cbn [dsum]; [ ring | reflexivity ]. Qed.

Lemma dsum_ext (f g : nat -> D) (n : nat) :
  (forall i, i < n -> f i = g i) -> dsum f n = dsum g n.
Proof.
  induction n as [ | n IH ]; intro H; [ reflexivity | ].
  rewrite !dsum_S, IH, H by auto with arith. reflexivity.
Qed.

Lemma dsum_zero (n : nat) : dsum (fun _ => d0) n = d0.
Proof.
  induction n as [ | n IH ]; [ reflexivity | ].
  rewrite dsum_S, IH. ring.
Qed.

Lemma dsum_add (f g : nat -> D) (n : nat) :
  dsum (fun i => dadd (f i) (g i)) n = dadd (dsum f n) (dsum g n).
Proof.
  induction n as [ | n IH ]; [ cbn; ring | ].
  rewrite !dsum_S, IH. ring.
Qed.

Lemma dsum_mul_l (c : D) (f : nat -> D) (n : nat) :
  dmul c (dsum f n) = dsum (fun i => dmul c (f i)) n.
Proof.
  induction n as [ | n IH ]; [ cbn; ring | ].
  rewrite !dsum_S, <- IH. ring.
Qed.

Lemma dsum_mul_r (c : D) (f : nat -> D) (n : nat) :
  dmul (dsum f n) c = dsum (fun i => dmul (f i) c) n.
Proof.
  induction n as [ | n IH ]; [ cbn; ring | ].
  rewrite !dsum_S, <- IH. ring.
Qed.

Lemma dsum_swap (f : nat -> nat -> D) (n m : nat) :
  dsum (fun i => dsum (fun j => f i j) m) n =
  dsum (fun j => dsum (fun i => f i j) n) m.
Proof.
  induction n as [ | n IH ].
  - cbn. symmetry. apply dsum_zero.
  - rewrite dsum_S, IH, <- dsum_add.
    apply dsum_ext. intros j _. rewrite dsum_S. reflexivity.
Qed.

Lemma quad_congruence_lhs (H S : Matrix D) (x : nat -> D) :
  quad (mmul (mmul H S) (transpose H)) x =
  dsum (fun i => dsum (fun j => dsum (fun k => dsum (fun l =>
     congruence_term H S x i j k l) (cols H)) (cols S)) (rows H)) (rows H).
Proof.
  unfold quad, congruence_term. cbn.
  apply dsum_ext; intros i _. apply dsum_ext; intros j _.
  rewrite dsum_mul_l, dsum_mul_r.
  apply dsum_ext; intros k _.
  rewrite dsum_mul_r, dsum_mul_l, dsum_mul_r.
  apply dsum_ext; intros l _. ring.
Qed.

Lemma quad_congruence_rhs (H S : Matrix D) (x : nat -> D) :
  quad S (fun l => dsum (fun i => dmul (x i) (coef H i l)) (rows H)) =
  dsum (fun l => dsum (fun k => dsum (fun i => dsum (fun j =>
     congruence_term H S x i j k l) (rows H)) (rows H)) (cols S)) (rows S).
Proof.
  unfold quad, congruence_term.
  apply dsum_ext; intros l _. apply dsum_ext; intros k _.
  rewrite dsum_mul_r, dsum_mul_r.
  apply dsum_ext; intros i _.
  rewrite dsum_mul_l.
  apply dsum_ext; intros j _. ring.
Qed.

(** [x^T (H S H^T) x = y^T S y] for [y = H^T x]. *)
Lemma quad_congruence (H S : Matrix D) (x : nat -> D) :
  cols H = rows S ->
  quad (mmul (mmul H S) (transpose H)) x =
  quad S (fun l => dsum (fun i => dmul (x i) (coef H i l)) (rows H)).
Proof.
  intro Hsize.
  rewrite quad_congruence_lhs, quad_congruence_rhs, <- Hsize.
  (* i j k l  ->  l k i j *)
  transitivity
    (dsum (fun i => dsum (fun l => dsum (fun k => dsum (fun j =>
       congruence_term H S x i j k l) (rows H)) (cols S)) (cols H)) (rows H)).
  - apply dsum_ext; intros i _.
    transitivity
      (dsum (fun j => dsum (fun l => dsum (fun k =>
         congruence_term H S x i j k l) (cols S)) (cols H)) (rows H)).
    + apply dsum_ext; intros j _.
      apply (dsum_swap (fun k l => congruence_term H S x i j k l)).
    + rewrite (dsum_swap (fun j l => dsum (fun k => congruence_term H S x i j k l) (cols S))).
      apply dsum_ext; intros l _.
      apply (dsum_swap (fun j k => congruence_term H S x i j k l)).
  - rewrite (dsum_swap (fun i l => dsum (fun k => dsum (fun j =>
       congruence_term H S x i j k l) (rows H)) (cols S))).
    apply dsum_ext; intros l _.
    apply (dsum_swap (fun i k => dsum (fun j => congruence_term H S x i j k l) (rows H))).
Qed.

Lemma psd_congruence (H S : Matrix D) :
  cols H = rows S -> psd S -> psd (mmul (mmul H S) (transpose H)).
Proof.
  intros Hsize HS x. rewrite quad_congruence by exact Hsize. apply HS.
Qed.

Lemma quad_madd (P Q : Matrix D) (x : nat -> D) :
  rows P = rows Q -> cols P = cols Q ->
  quad (madd P Q) x = dadd (quad P x) (quad Q x).
Proof.
  intros Hr Hc. unfold quad. cbn. rewrite <- Hr, <- Hc, <- dsum_add.
  apply dsum_ext; intros i _. rewrite <- dsum_add.
  apply dsum_ext; intros j _. ring.
Qed.

Lemma psd_madd (P Q : Matrix D) :
  rows P = rows Q -> cols P = cols Q -> psd P -> psd Q -> psd (madd P Q).
Proof.
  intros Hr Hc HP HQ x. rewrite quad_madd by assumption.
  apply (nonneg_add EA); [ apply HP | apply HQ ].
Qed.
End Algebra.


(** ** The laws hold for the planar poses and for the integers *)

Lemma Z_exact_arithmetic : exact_arithmetic Z_Scalar.
Proof.
  split; [ exact InitialRing.Zth | ].
  cbn. intros a b Ha Hb. apply Z.leb_le in Ha, Hb. apply Z.leb_le. lia.
Qed.

Section Pose2Laws.
Context {D : Type} {SD : Scalar D}.
Hypothesis EA : exact_arithmetic SD.

Add Ring pose2_ring_tactic : (scalar_ring EA).

Lemma Pose2_inv_l (a : Pose2.t D) :
  Pose2.valid a -> Pose2.mul (Pose2.inv a) a = Pose2.identity.
Proof.
  destruct a as [c s x y]. unfold Pose2.valid, Pose2.mul, Pose2.inv, Pose2.identity.
  cbn. intro Hv. f_equal; try ring.
  rewrite <- Hv. ring.
Qed.

Lemma Pose2_inv_r (a : Pose2.t D) :
  Pose2.valid a -> Pose2.mul a (Pose2.inv a) = Pose2.identity.
Proof.
  destruct a as [c s x y]. unfold Pose2.valid, Pose2.mul, Pose2.inv, Pose2.identity.
  cbn. intro Hv. f_equal.
  - rewrite <- Hv. ring.
  - ring.
  - transitivity (dmul x (dsub d1 (dadd (dmul c c) (dmul s s)))); [ ring | ].
    rewrite Hv. ring.
  - transitivity (dmul y (dsub d1 (dadd (dmul c c) (dmul s s)))); [ ring | ].
    rewrite Hv. ring.
Qed.

Lemma Pose2_group_laws : group_laws (T := Pose2.t D) Pose2.valid.
Proof.
  split; unfold pose_between, pose_compose, pose_inverse; cbn.
  - reflexivity.
  - intros [c1 s1 x1 y1] [c2 s2 x2 y2] [c3 s3 x3 y3].
    unfold Pose2.mul. cbn. f_equal; ring.
  - intros [c s x y]. unfold Pose2.mul, Pose2.identity. cbn. f_equal; ring.
  - exact Pose2_inv_l.
  - exact Pose2_inv_r.
Qed.
End Pose2Laws.

Lemma Pose2_square_jacobians (D : Type) (SD : Scalar D) :
  square_jacobians (D := D) (T := Pose2.t D).
Proof. split; reflexivity. Qed.

(** ** Relative pose after composition *)

Lemma compose_pose (D : Type) (SD : Scalar D) (T : Type) (LG : LieGroup D T)
      (A B : PoseWithCovariance.t D T) :
  pose (compose A B) = pose_compose (pose A) (pose B).
Proof.
  unfold compose, pose_compose.
  destruct (T_compose (pose A) (pose B)) as [[p Ha] Hb]. reflexivity.
Qed.

Lemma inverse_pose (D : Type) (SD : Scalar D) (T : Type) (LG : LieGroup D T)
      (A : PoseWithCovariance.t D T) :
  pose (inverse A) = pose_inverse (pose A).
Proof.
  unfold inverse, pose_inverse.
  destruct (T_inverse (pose A)) as [p Ha]. reflexivity.
Qed.

(** The pose of [between] is the one the first call of [T]'s [between]
    returns, whichever way the factorization goes. *)
Lemma between_pose (D : Type) (SD : Scalar D) (T : Type) (LG : LieGroup D T)
      (CH : Cholesky D) (A B : PoseWithCovariance.t D T) :
  pose (between A B) = pose_between (pose A) (pose B).
Proof.
  unfold between, between_logged, pose_between.
  destruct (T_between (pose A) (pose B)) as [[p Ha] Hb]. cbn.
  destruct (llt_success _); cbn; [ reflexivity | ].
  destruct (T_between (pose B) (pose A)) as [[p' Ha'] Hb']. reflexivity.
Qed.

(** C6: the pose of [between(A, compose(A, r))] is computed from the poses
    of [A] and [r] alone, whatever their covariance matrices are and whatever
    the Cholesky factorizations inside [between] report; when the poses form
    a group it is the pose of [r]. *)
Theorem between_compose_recovers_pose :
  forall (D : Type) (SD : Scalar D) (T : Type) (LG : LieGroup D T)
         (CH : Cholesky D) (A r : PoseWithCovariance.t D T),
    pose (between A (compose A r)) =
      pose_between (pose A) (pose_compose (pose A) (pose r)) /\
    forall valid : T -> Prop,
      group_laws valid ->
      valid (pose A) ->
      pose (between A (compose A r)) = pose r.
Proof.
  intros D SD T LG CH A r.
  rewrite between_pose, compose_pose. split; [ reflexivity | ].
  intros valid G HA.
  rewrite (between_inverse_compose G), <- (compose_assoc G).
  rewrite (compose_inverse_l G) by exact HA.
  apply (compose_identity_l G).
Qed.

(** A quarter turn composed with a half turn, over the integers. *)
Lemma between_compose_recovers_pose_witness :
  Pose2.valid (pose quarter_turn) /\
  pose (between quarter_turn (compose quarter_turn half_turn)) = pose half_turn.
Proof.
  split; [ reflexivity | ].
  apply (proj2 (@between_compose_recovers_pose Z Z_Scalar (Pose2.t Z) _ _
                  quarter_turn half_turn) Pose2.valid).
  - exact (Pose2_group_laws Z_exact_arithmetic).
  - reflexivity.
Defined.

(** ** Composition with the inverse *)

(** C7, as stated, fails: a pose with covariance need not carry a positive
    semi-definite covariance.  [indefinite_estimate] is returned by
    [between]; composing it with its inverse gives the identity pose with a
    covariance whose quadratic form is -2 at the second unit vector. *)
Lemma compose_inverse_not_psd :
  pose (compose indefinite_estimate (inverse indefinite_estimate)) = Pose2.identity /\
  quad (covariance_matrix (compose indefinite_estimate (inverse indefinite_estimate)))
       unit_y = double_of_Z (-2) /\
  ~ psd (covariance_matrix (compose indefinite_estimate (inverse indefinite_estimate))).
Proof.
  split; [ vm_compute; reflexivity | split; [ vm_compute; reflexivity | ] ].
  intro H. specialize (H unit_y). vm_compute in H. discriminate H.
Qed.

(** C7, amended: in exact arithmetic, for a pose type that is a group and
    whose Jacobians are square of size [getDim], and for every [A] with a
    valid pose and a positive semi-definite covariance of [getDim] rows,
    [compose(A, inverse(A))] is the identity pose and its covariance is
    positive semi-definite. *)
Theorem compose_inverse_identity_psd :
  forall (D : Type) (SD : Scalar D) (T : Type) (LG : LieGroup D T)
         (valid : T -> Prop),
    exact_arithmetic SD ->
    group_laws valid ->
    square_jacobians (D := D) (T := T) ->
    forall A : PoseWithCovariance.t D T,
      valid (pose A) ->
      rows (covariance_matrix A) = getDim ->
      psd (covariance_matrix A) ->
      pose (compose A (inverse A)) = T_default /\
      psd (covariance_matrix (compose A (inverse A))).
Proof.
  intros D SD T LG valid EA G J A HA Hrows Hpsd. split.
  - rewrite compose_pose, inverse_pose. apply (compose_inverse_r G). exact HA.
  - pose proof (inverse_H_rows J (pose A)) as Hir.
    pose proof (inverse_H_cols J (pose A)) as Hic.
    pose proof (compose_Ha_rows J (pose A) (pose (inverse A))) as Har.
    pose proof (compose_Ha_cols J (pose A) (pose (inverse A))) as Hac.
    pose proof (compose_Hb_rows J (pose A) (pose (inverse A))) as Hbr.
    pose proof (compose_Hb_cols J (pose A) (pose (inverse A))) as Hbc.
    unfold compose.
    destruct (T_compose (pose A) (pose (inverse A))) as [[p Ha] Hb].
    cbn in Har, Hac, Hbr, Hbc. revert Hbc. unfold inverse.
    destruct (T_inverse (pose A)) as [q Hi]. cbn in Hir, Hic. cbn. intro Hbc.
    apply (psd_madd EA); cbn; try congruence.
    + apply (psd_congruence EA); [ congruence | exact Hpsd ].
    + apply (psd_congruence EA); [ cbn; congruence | ].
      apply (psd_congruence EA); [ congruence | exact Hpsd ].
Qed.

Lemma quarter_turn_psd : psd (covariance_matrix quarter_turn).
Proof.
  intro x. unfold quad. cbn. apply Z.leb_le. nia.
Qed.

(** The quarter turn with covariance diag(1, 2, 3), over the integers. *)
Lemma compose_inverse_identity_psd_witness :
  pose (compose quarter_turn (inverse quarter_turn)) = Pose2.identity /\
  psd (covariance_matrix (compose quarter_turn (inverse quarter_turn))).
Proof.
  apply (@compose_inverse_identity_psd Z Z_Scalar (Pose2.t Z)
           Pose2.Pose2_LieGroup Pose2.valid
           Z_exact_arithmetic (Pose2_group_laws Z_exact_arithmetic)
           (Pose2_square_jacobians Z_Scalar) quarter_turn).
  - reflexivity.
  - reflexivity.
  - exact quarter_turn_psd.
Defined.

(** ** Relative pose and the Cholesky test *)

(** C2, as stated, fails: nothing is raised when the covariance of the
    fallback does not factor either.  For [estimate_x] and [estimate_y] the
    first difference is diag(-1, 1, 0), the fallback is diag(1, -1, 0),
    whose quadratic form is -1 at the second unit vector; both
    factorizations report [NumericalIssue], and no message is logged. *)
Lemma fallback_failure_is_silent :
  quad (covariance_matrix (between estimate_x estimate_y)) unit_y = double_of_Z (-1) /\
  eigen_llt
    (msub (covariance_matrix estimate_y)
          (mmul (mmul (snd (fst (T_between (pose estimate_x) (pose estimate_y))))
                      (covariance_matrix estimate_x))
                (transpose (snd (fst (T_between (pose estimate_x)
                                                (pose estimate_y))))))) = false /\
  eigen_llt (covariance_matrix (between estimate_x estimate_y)) = false /\
  snd (between_logged estimate_x estimate_y) = [] /\
  ~ warns_when_fallback_fails (T := Pose2.t double) Eigen_Cholesky.
Proof.
  assert (H1 : eigen_llt
    (msub (covariance_matrix estimate_y)
          (mmul (mmul (snd (fst (T_between (pose estimate_x) (pose estimate_y))))
                      (covariance_matrix estimate_x))
                (transpose (snd (fst (T_between (pose estimate_x)
                                                (pose estimate_y))))))) = false)
    by (vm_compute; reflexivity).
  assert (H2 : eigen_llt (covariance_matrix (between estimate_x estimate_y)) = false)
    by (vm_compute; reflexivity).
  assert (H3 : snd (between_logged estimate_x estimate_y) = [])
    by (vm_compute; reflexivity).
  split; [ vm_compute; reflexivity | ].
  repeat split; try assumption.
  intro H. exact (H estimate_x estimate_y H1 H2 H3).
Qed.

(** C2, amended: [between(A, B)] has the pose of [A.pose.between(B.pose)]
    and first computes [Cov_B - J Cov_A J^T], [J] being the Jacobian of that
    call with respect to [A.pose]; it attempts a Cholesky factorization of
    this matrix and keeps it when the factorization succeeds.  When it
    fails, the pose is kept and the covariance becomes
    [Cov_A - J' Cov_B J'^T], [J'] being the Jacobian of
    [B.pose.between(A.pose)] with respect to [B.pose]; no inversion is
    applied.  The outcome of the second factorization is ignored: nothing is
    logged and the result is returned as it is. *)
Theorem between_cholesky_fallback :
  forall (D : Type) (SD : Scalar D) (T : Type) (LG : LieGroup D T)
         (CH : Cholesky D) (A B : PoseWithCovariance.t D T),
    let J := snd (fst (T_between (pose A) (pose B))) in
    let J' := snd (fst (T_between (pose B) (pose A))) in
    let first := msub (covariance_matrix B)
                      (mmul (mmul J (covariance_matrix A)) (transpose J)) in
    (forall i j, coef first i j =
                 dsub (coef (covariance_matrix B) i j)
                      (congruence_entry J (covariance_matrix A) i j)) /\
    pose (between A B) = pose_between (pose A) (pose B) /\
    (llt_success first = true -> covariance_matrix (between A B) = first) /\
    (llt_success first = false ->
       rows (covariance_matrix (between A B)) = rows (covariance_matrix A) /\
       cols (covariance_matrix (between A B)) = cols (covariance_matrix A) /\
       forall i j, coef (covariance_matrix (between A B)) i j =
                   dsub (coef (covariance_matrix A) i j)
                        (congruence_entry J' (covariance_matrix B) i j)) /\
    snd (between_logged A B) = [].
Proof.
  intros D SD T LG CH A B.
  split; [ reflexivity | split; [ apply between_pose | ] ].
  unfold between, between_logged.
  destruct (T_between (pose A) (pose B)) as [[p Ha] Hb]. cbn.
  destruct (T_between (pose B) (pose A)) as [[p' Ha'] Hb']. cbn.
  destruct (llt_success _); cbn; repeat split; intros; try discriminate;
    reflexivity.
Qed.

(** For [estimate_x] and [estimate_y] the fallback is taken; the entry
    (1, 1) of the result is 0 - 1. *)
Lemma between_cholesky_fallback_witness :
  llt_success
    (msub (covariance_matrix estimate_y)
          (mmul (mmul (snd (fst (T_between (pose estimate_x) (pose estimate_y))))
                      (covariance_matrix estimate_x))
                (transpose (snd (fst (T_between (pose estimate_x)
                                                (pose estimate_y))))))) = false /\
  coef (covariance_matrix (between estimate_x estimate_y)) 1 1 = double_of_Z (-1).
Proof.
  assert (H1 : llt_success
    (msub (covariance_matrix estimate_y)
          (mmul (mmul (snd (fst (T_between (pose estimate_x) (pose estimate_y))))
                      (covariance_matrix estimate_x))
                (transpose (snd (fst (T_between (pose estimate_x)
                                                (pose estimate_y))))))) = false)
    by (vm_compute; reflexivity).
  split; [ exact H1 | ].
  destruct (@between_cholesky_fallback double _ (Pose2.t double) _ Eigen_Cholesky
              estimate_x estimate_y) as (_ & _ & _ & H & _).
  destruct (H H1) as (_ & _ & E). rewrite E. vm_compute. reflexivity.
Defined.


(** ** The methods leave their operands alone *)

Section MemoryFacts.
Variable X : Type.

Lemma unchanged_app (m ext : Mem X) : unchanged m (m ++ ext).
Proof.
  intros a x H. rewrite nth_error_app1; [ exact H | ].
  apply nth_error_Some. congruence.
Qed.

Lemma bind_load_old (R : Type) (a : nat) (x : X) (ext : Mem X)
      (k : X -> Prog X R) (m : Mem X) :
  nth_error m a = Some x ->
  bind (load a) k (m ++ ext) = k x (m ++ ext).
Proof.
  intro H. unfold bind, load. rewrite (@unchanged_app m ext a x H). reflexivity.
Qed.

Lemma load_fresh (y : X) (m : Mem X) :
  load (length m) (m ++ [y]) = Some (y, m ++ [y]).
Proof.
  unfold load. rewrite nth_error_app2, Nat.sub_diag by apply Nat.le_refl.
  reflexivity.
Qed.

Lemma update_fresh (x y : X) (m : Mem X) :
  update (length m) x (m ++ [y]) = m ++ [x].
Proof. induction m as [ | z m IH ]; cbn; [ | rewrite IH ]; reflexivity. Qed.

Lemma store_fresh (x y : X) (m : Mem X) :
  store (length m) x (m ++ [y]) = Some (tt, m ++ [x]).
Proof.
  unfold store. rewrite update_fresh.
  replace (length m <? length (m ++ [y])) with true; [ reflexivity | ].
  symmetry. apply Nat.ltb_lt. rewrite length_app. cbn. lia.
Qed.

(** A field of the fresh object is assigned: nothing else moves. *)
Lemma bind_modify_fresh (R : Type) (f : X -> X) (y : X)
      (k : unit -> Prog X R) (m : Mem X) :
  bind (o <- load (length m) ;; store (length m) (f o)) k (m ++ [y]) =
  k tt (m ++ [f y]).
Proof.
  unfold bind at 1 2. rewrite load_fresh, store_fresh. reflexivity.
Qed.

Lemma returns_fresh_intro (p : Prog X X) (m : Mem X) (r : X) :
  p m = Some (r, m ++ [r]) -> returns_fresh p m r.
Proof.
  intro H. exists (m ++ [r]). split; [ exact H | split; [ apply unchanged_app | ] ].
  split.
  - apply nth_error_None. apply Nat.le_refl.
  - rewrite nth_error_app2, Nat.sub_diag by apply Nat.le_refl. reflexivity.
Qed.

Lemma returns_intro (R : Type) (p : Prog X R) (m : Mem X) (r : R) :
  p m = Some (r, m) -> returns p m r.
Proof.
  intro H. exists m. split; [ exact H | ]. intros a x Ha. exact Ha.
Qed.
End MemoryFacts.

Section CovarianceRuns.
Context {D : Type} {SD : Scalar D} {T : Type} {LG : LieGroup D T}.
Variable m : Mem (PoseWithCovariance.t D T).
Variables this other : nat.
Variables A B : PoseWithCovariance.t D T.
Hypothesis Hthis : nth_error m this = Some A.
Hypothesis Hother : nth_error m other = Some B.

Lemma covariance_compose_run :
  CovarianceMethods.compose this other m = Some (compose A B, m ++ [compose A B]).
Proof.
  unfold CovarianceMethods.compose, compose.
  unfold CovarianceMethods.set_pose, CovarianceMethods.set_covariance_matrix.
  unfold bind at 1. unfold alloc.
  rewrite (@bind_load_old _ _ _ _ _ _ _ Hthis), (@bind_load_old _ _ _ _ _ _ _ Hother).
  destruct (T_compose (pose A) (pose B)) as [[p Ha] Hb].
  rewrite (bind_modify_fresh (fun o => mk p (covariance_matrix o))).
  rewrite (@bind_load_old _ _ _ _ _ _ _ Hthis), (@bind_load_old _ _ _ _ _ _ _ Hother).
  rewrite (bind_modify_fresh (fun o => mk (pose o) _)).
  apply load_fresh.
Qed.

Lemma covariance_inverse_run :
  CovarianceMethods.inverse this m = Some (inverse A, m ++ [inverse A]).
Proof.
  unfold CovarianceMethods.inverse, inverse.
  unfold CovarianceMethods.set_pose, CovarianceMethods.set_covariance_matrix.
  unfold bind at 1. unfold alloc.
  rewrite (@bind_load_old _ _ _ _ _ _ _ Hthis).
  destruct (T_inverse (pose A)) as [p Ha].
  rewrite (bind_modify_fresh (fun o => mk p (covariance_matrix o))).
  rewrite (@bind_load_old _ _ _ _ _ _ _ Hthis).
  rewrite (bind_modify_fresh (fun o => mk (pose o) _)).
  apply load_fresh.
Qed.

Lemma covariance_between_run (CH : Cholesky D) :
  CovarianceMethods.between this other m = Some (between A B, m ++ [between A B]).
Proof.
  unfold CovarianceMethods.between, between, between_logged.
  unfold CovarianceMethods.set_pose, CovarianceMethods.set_covariance_matrix.
  unfold bind at 1. unfold alloc.
  rewrite (@bind_load_old _ _ _ _ _ _ _ Hthis), (@bind_load_old _ _ _ _ _ _ _ Hother).
  destruct (T_between (pose A) (pose B)) as [[p Ha] Hb].
  rewrite (bind_modify_fresh (fun o => mk p (covariance_matrix o))).
  rewrite (@bind_load_old _ _ _ _ _ _ _ Hthis), (@bind_load_old _ _ _ _ _ _ _ Hother).
  rewrite (bind_modify_fresh (fun o => mk (pose o) _)).
  unfold bind at 1. rewrite load_fresh. cbn.
  destruct (llt_success _); cbn.
  - apply load_fresh.
  - rewrite (@bind_load_old _ _ _ _ _ _ _ Hthis), (@bind_load_old _ _ _ _ _ _ _ Hother).
    destruct (T_between (pose B) (pose A)) as [[p' Ha'] Hb'].
    rewrite (bind_modify_fresh (fun o => mk (pose o) _)).
    apply load_fresh.
Qed.

Lemma covariance_norm_run (LM : Logarithm D T) (MI : MatrixInverse D) :
  CovarianceMethods.norm this m = Some (norm A, m).
Proof.
  unfold CovarianceMethods.norm, norm.
  rewrite <- (app_nil_r m) at 1.
  rewrite (@bind_load_old _ _ _ _ _ _ _ Hthis), (@bind_load_old _ _ _ _ _ _ _ Hthis).
  unfold ret. rewrite app_nil_r. reflexivity.
Qed.
End CovarianceRuns.

Section DistanceRuns.
Context {D : Type} {SD : Scalar D} {T : Type} {LG : LieGroup D T}.
Variable m : Mem (PoseWithDistance.t D T).
Variables this other : nat.
Variables A B : PoseWithDistance.t D T.
Hypothesis Hthis : nth_error m this = Some A.
Hypothesis Hother : nth_error m other = Some B.

Lemma distance_compose_run :
  DistanceMethods.compose this other m =
  Some (PoseWithDistance.compose A B, m ++ [PoseWithDistance.compose A B]).
Proof.
  unfold DistanceMethods.compose, PoseWithDistance.compose.
  unfold DistanceMethods.set_pose, DistanceMethods.set_distance.
  unfold bind at 1. unfold alloc.
  rewrite (@bind_load_old _ _ _ _ _ _ _ Hthis), (@bind_load_old _ _ _ _ _ _ _ Hother).
  rewrite (bind_modify_fresh
             (fun o => PoseWithDistance.mk _ (PoseWithDistance.distance o))).
  rewrite (@bind_load_old _ _ _ _ _ _ _ Hthis), (@bind_load_old _ _ _ _ _ _ _ Hother).
  rewrite (bind_modify_fresh
             (fun o => PoseWithDistance.mk (PoseWithDistance.pose o) _)).
  apply load_fresh.
Qed.

Lemma distance_inverse_run :
  DistanceMethods.inverse this m =
  Some (PoseWithDistance.inverse A, m ++ [PoseWithDistance.inverse A]).
Proof.
  unfold DistanceMethods.inverse, PoseWithDistance.inverse.
  unfold DistanceMethods.set_pose, DistanceMethods.set_distance.
  unfold bind at 1. unfold alloc.
  rewrite (@bind_load_old _ _ _ _ _ _ _ Hthis).
  rewrite (bind_modify_fresh
             (fun o => PoseWithDistance.mk _ (PoseWithDistance.distance o))).
  rewrite (@bind_load_old _ _ _ _ _ _ _ Hthis).
  rewrite (bind_modify_fresh
             (fun o => PoseWithDistance.mk (PoseWithDistance.pose o) _)).
  apply load_fresh.
Qed.

Lemma distance_between_run :
  DistanceMethods.between this other m =
  Some (PoseWithDistance.between A B, m ++ [PoseWithDistance.between A B]).
Proof.
  unfold DistanceMethods.between, PoseWithDistance.between.
  unfold DistanceMethods.set_pose, DistanceMethods.set_distance.
  unfold bind at 1. unfold alloc.
  rewrite (@bind_load_old _ _ _ _ _ _ _ Hthis), (@bind_load_old _ _ _ _ _ _ _ Hother).
  rewrite (bind_modify_fresh
             (fun o => PoseWithDistance.mk _ (PoseWithDistance.distance o))).
  rewrite (@bind_load_old _ _ _ _ _ _ _ Hthis), (@bind_load_old _ _ _ _ _ _ _ Hother).
  rewrite (bind_modify_fresh
             (fun o => PoseWithDistance.mk (PoseWithDistance.pose o) _)).
  apply load_fresh.
Qed.

Lemma distance_norm_run (LM : Logarithm D T) :
  DistanceMethods.norm this m = Some (PoseWithDistance.norm A, m).
Proof.
  unfold DistanceMethods.norm, PoseWithDistance.norm.
  rewrite <- (app_nil_r m) at 1.
  rewrite (@bind_load_old _ _ _ _ _ _ _ Hthis), (@bind_load_old _ _ _ _ _ _ _ Hthis).
  unfold ret. rewrite app_nil_r. reflexivity.
Qed.
End DistanceRuns.

(** C8: called on any memory in which [this] and [other] hold objects (the
    same one or two), each of [compose], [inverse] and [between], for poses
    with covariance and for poses with distance, returns the value computed
    from the operands, built at an address that was free before the call,
    and leaves every object that was in memory, the operands among them,
    as it was; [norm] returns its number and leaves the memory as it was. *)
Theorem methods_do_not_mutate :
  forall (D : Type) (SD : Scalar D) (T : Type) (LG : LieGroup D T)
         (CH : Cholesky D) (LM : Logarithm D T) (MI : MatrixInverse D),
    (forall (m : Mem (PoseWithCovariance.t D T)) (this other : nat)
            (A B : PoseWithCovariance.t D T),
       nth_error m this = Some A ->
       nth_error m other = Some B ->
       returns_fresh (CovarianceMethods.compose this other) m (compose A B) /\
       returns_fresh (CovarianceMethods.inverse this) m (inverse A) /\
       returns_fresh (CovarianceMethods.between this other) m (between A B) /\
       returns (CovarianceMethods.norm this) m (norm A)) /\
    (forall (m : Mem (PoseWithDistance.t D T)) (this other : nat)
            (A B : PoseWithDistance.t D T),
       nth_error m this = Some A ->
       nth_error m other = Some B ->
       returns_fresh (DistanceMethods.compose this other) m
                     (PoseWithDistance.compose A B) /\
       returns_fresh (DistanceMethods.inverse this) m (PoseWithDistance.inverse A) /\
       returns_fresh (DistanceMethods.between this other) m
                     (PoseWithDistance.between A B) /\
       returns (DistanceMethods.norm this) m (PoseWithDistance.norm A)).
Proof.
  intros D SD T LG CH LM MI. split; intros m this other A B Hthis Hother.
  - repeat split.
    + apply returns_fresh_intro, covariance_compose_run; assumption.
    + apply returns_fresh_intro, covariance_inverse_run; assumption.
    + apply returns_fresh_intro, covariance_between_run; assumption.
    + apply returns_intro, covariance_norm_run; assumption.
  - repeat split.
    + apply returns_fresh_intro, distance_compose_run; assumption.
    + apply returns_fresh_intro, distance_inverse_run; assumption.
    + apply returns_fresh_intro, distance_between_run; assumption.
    + apply returns_intro, distance_norm_run; assumption.
Qed.

(** The calls [x.compose(y)], [x.inverse()], [x.between(y)] and [x.norm()]
    on the two estimates, and [w.compose(w)], [w.inverse()], [w.between(w)]
    and [w.norm()] on the second walk, where [this] and [other] alias. *)
Lemma methods_do_not_mutate_witness :
  (returns_fresh (CovarianceMethods.compose 0 1) two_estimates
                 (compose estimate_x estimate_y) /\
   returns_fresh (CovarianceMethods.inverse 0) two_estimates (inverse estimate_x) /\
   returns_fresh (CovarianceMethods.between 0 1) two_estimates
                 (between estimate_x estimate_y) /\
   returns (CovarianceMethods.norm (LM := translation_log) (MI := diagonal_inverse) 0)
           two_estimates
           (norm (LM := translation_log) (MI := diagonal_inverse) estimate_x)) /\
  (returns_fresh (DistanceMethods.compose 1 1) two_walks
                 (PoseWithDistance.compose walk_step walk_step) /\
   returns_fresh (DistanceMethods.inverse 1) two_walks
                 (PoseWithDistance.inverse walk_step) /\
   returns_fresh (DistanceMethods.between 1 1) two_walks
                 (PoseWithDistance.between walk_step walk_step) /\
   returns (DistanceMethods.norm (LM := translation_log) 1) two_walks
           (PoseWithDistance.norm (LM := translation_log) walk_step)).
Proof.
  destruct (@methods_do_not_mutate double _ (Pose2.t double) _ Eigen_Cholesky
              translation_log diagonal_inverse) as [Hc Hd].
  split.
  - apply (Hc two_estimates 0 1 estimate_x estimate_y); reflexivity.
  - apply (Hd two_walks 1 1 walk_step walk_step); reflexivity.
Defined.

(** * Further properties of the propagation *)

(** ** Symmetric and positive semi-definite covariances are kept *)

Section Congruence.
Context {D : Type} {SD : Scalar D}.
Hypothesis EA : exact_arithmetic SD.

Add Ring congruence_ring_tactic : (scalar_ring EA).

(** [H S H^T] is symmetric when [S] is. *)
Lemma congruence_symmetric (H S : Matrix D) (i j : nat) :
  conformable H S -> symmetric S ->
  coef (mmul (mmul H S) (transpose H)) i j =
  coef (mmul (mmul H S) (transpose H)) j i.
Proof.
  intros Hc [Hsq Hs]. unfold conformable in Hc. cbn. rewrite Hc, <- Hsq.
  transitivity
    (dsum (fun k => dsum (fun l =>
       dmul (dmul (coef H i l) (coef S l k)) (coef H j k)) (rows S)) (rows S)).
  - apply (dsum_ext EA); intros k _. apply (dsum_mul_r EA).
  - rewrite (dsum_swap EA
               (fun k l => dmul (dmul (coef H i l) (coef S l k)) (coef H j k))).
    apply (dsum_ext EA). intros l Hl. rewrite (dsum_mul_r EA).
    apply (dsum_ext EA). intros k Hk.
    rewrite (Hs l k) by assumption. ring.
Qed.

Lemma congruence_is_symmetric (H S : Matrix D) :
  conformable H S -> symmetric S ->
  symmetric (mmul (mmul H S) (transpose H)).
Proof.
  intros Hc Hs. split; [ reflexivity | ].
  intros i j _ _. apply congruence_symmetric; assumption.
Qed.

Lemma madd_symmetric (P Q : Matrix D) :
  symmetric P -> (forall i j, coef Q i j = coef Q j i) -> symmetric (madd P Q).
Proof.
  intros [Hsq HP] HQ. split; [ exact Hsq | ].
  cbn. intros i j Hi Hj. rewrite (HP i j), (HQ i j) by assumption. reflexivity.
Qed.

Lemma msub_symmetric (P Q : Matrix D) :
  symmetric P -> (forall i j, coef Q i j = coef Q j i) -> symmetric (msub P Q).
Proof.
  intros [Hsq HP] HQ. split; [ exact Hsq | ].
  cbn. intros i j Hi Hj. rewrite (HP i j), (HQ i j) by assumption. reflexivity.
Qed.
End Congruence.

Lemma diagonal3_symmetric (a b c : Z) :
  symmetric (of_rows [ [a; 0; 0]; [0; b; 0]; [0; 0; c] ]%Z).
Proof.
  split; [ reflexivity | ]. cbn. intros i j Hi Hj.
  do 3 (destruct i as [ | i ]; [ do 3 (destruct j as [ | j ]; [ reflexivity | ]); lia | ]).
  lia.
Qed.

(** X1: in exact arithmetic, when the covariances of [A] and [B] are
    symmetric and the products with the Jacobians are well formed, the
    covariances of [compose(A, B)], of [inverse(A)] and of [between(A, B)]
    (on either branch of its Cholesky test) are symmetric. *)
Theorem symmetric_covariance_is_kept :
  forall (D : Type) (SD : Scalar D) (T : Type) (LG : LieGroup D T)
         (CH : Cholesky D),
    exact_arithmetic SD ->
    forall A B : PoseWithCovariance.t D T,
      symmetric (covariance_matrix A) ->
      symmetric (covariance_matrix B) ->
      (conformable (snd (fst (T_compose (pose A) (pose B)))) (covariance_matrix A) ->
       conformable (snd (T_compose (pose A) (pose B))) (covariance_matrix B) ->
       symmetric (covariance_matrix (compose A B))) /\
      (conformable (snd (T_inverse (pose A))) (covariance_matrix A) ->
       symmetric (covariance_matrix (inverse A))) /\
      (conformable (snd (fst (T_between (pose A) (pose B)))) (covariance_matrix A) ->
       conformable (snd (fst (T_between (pose B) (pose A)))) (covariance_matrix B) ->
       symmetric (covariance_matrix (between A B))).
Proof.
  intros D SD T LG CH EA A B HA HB. split; [ | split ].
  - unfold compose. destruct (T_compose (pose A) (pose B)) as [[p Ha] Hb].
    cbn. intros Hca Hcb.
    apply madd_symmetric.
    + apply (congruence_is_symmetric EA); assumption.
    + intros i j. apply (congruence_symmetric EA i j Hcb HB).
  - unfold inverse. destruct (T_inverse (pose A)) as [p Hi]. cbn.
    intros Hc. apply (congruence_is_symmetric EA); assumption.
  - unfold between, between_logged.
    destruct (T_between (pose A) (pose B)) as [[p Ha] Hb].
    destruct (T_between (pose B) (pose A)) as [[p' Ha'] Hb'].
    cbn. intros Hca Hcb.
    destruct (llt_success _); cbn.
    + apply msub_symmetric; [ exact HB | ]. intros i j.
      apply (congruence_symmetric EA i j Hca HA).
    + apply msub_symmetric; [ exact HA | ]. intros i j.
      apply (congruence_symmetric EA i j Hcb HB).
Qed.

(** The quarter turn and the half turn, over the integers. *)
Lemma symmetric_covariance_is_kept_witness :
  symmetric (covariance_matrix (compose quarter_turn half_turn)) /\
  symmetric (covariance_matrix (inverse quarter_turn)) /\
  symmetric (covariance_matrix (between quarter_turn half_turn)).
Proof.
  destruct (@symmetric_covariance_is_kept Z Z_Scalar (Pose2.t Z) _ Eigen_Cholesky
              Z_exact_arithmetic quarter_turn half_turn
              (diagonal3_symmetric 1 2 3) (diagonal3_symmetric 5 0 1))
    as (Hc & Hi & Hb).
  split; [ apply Hc; reflexivity | split; [ apply Hi | apply Hb ]; reflexivity ].
Defined.

(** X2: in exact arithmetic, when the covariances of [A] and [B] are positive
    semi-definite and the products with the Jacobians are well formed, the
    covariances of [compose(A, B)] and of [inverse(A)] are positive
    semi-definite. *)
Theorem psd_covariance_is_kept :
  forall (D : Type) (SD : Scalar D) (T : Type) (LG : LieGroup D T),
    exact_arithmetic SD ->
    forall A B : PoseWithCovariance.t D T,
      psd (covariance_matrix A) ->
      psd (covariance_matrix B) ->
      (conformable (snd (fst (T_compose (pose A) (pose B)))) (covariance_matrix A) ->
       conformable (snd (T_compose (pose A) (pose B))) (covariance_matrix B) ->
       rows (snd (fst (T_compose (pose A) (pose B)))) =
         rows (snd (T_compose (pose A) (pose B))) ->
       psd (covariance_matrix (compose A B))) /\
      (conformable (snd (T_inverse (pose A))) (covariance_matrix A) ->
       psd (covariance_matrix (inverse A))).
Proof.
  intros D SD T LG EA A B HA HB. split.
  - unfold compose. destruct (T_compose (pose A) (pose B)) as [[p Ha] Hb].
    cbn. intros Hca Hcb Hrows.
    apply (psd_madd EA); cbn; try assumption.
    + apply (psd_congruence EA); assumption.
    + apply (psd_congruence EA); assumption.
  - unfold inverse. destruct (T_inverse (pose A)) as [p Hi]. cbn.
    intro Hc. apply (psd_congruence EA); assumption.
Qed.

Lemma half_turn_psd : psd (covariance_matrix half_turn).
Proof.
  intro x. unfold quad. cbn. apply Z.leb_le. nia.
Qed.

Lemma psd_covariance_is_kept_witness :
  psd (covariance_matrix (compose quarter_turn half_turn)) /\
  psd (covariance_matrix (inverse quarter_turn)).
Proof.
  destruct (@psd_covariance_is_kept Z Z_Scalar (Pose2.t Z) _
              Z_exact_arithmetic quarter_turn half_turn
              quarter_turn_psd half_turn_psd) as (Hc & Hi).
  split; [ apply Hc | apply Hi ]; reflexivity.
Defined.

(** ** Poses known exactly *)

Section ZeroCovariance.
Context {D : Type} {SD : Scalar D}.
Hypothesis EA : exact_arithmetic SD.

Add Ring zero_covariance_ring_tactic : (scalar_ring EA).

Lemma congruence_entry_zero (H : Matrix D) (r c i j : nat) :
  congruence_entry H (Zero r c) i j = d0.
Proof.
  unfold congruence_entry. cbn.
  transitivity (dsum (fun _ : nat => d0) c); [ | apply (dsum_zero EA) ].
  apply (dsum_ext EA). intros k _.
  rewrite (dsum_ext EA (fun l => dmul (coef H i l) d0) (fun _ => d0) (n := cols H))
    by (intros; ring).
  rewrite (dsum_zero EA). ring.
Qed.

Lemma dsub_zero_r (a : D) : dsub a d0 = a.
Proof. ring. Qed.

Lemma dsub_zero_l (a : D) : dsub d0 a = dopp a.
Proof. ring. Qed.

Lemma dadd_zero_l (a : D) : dadd d0 a = a.
Proof. ring. Qed.

Lemma dadd_zero_r (a : D) : dadd a d0 = a.
Proof. ring. Qed.

Lemma dsum_opp (f : nat -> D) (n : nat) :
  dsum (fun i => dopp (f i)) n = dopp (dsum f n).
Proof.
  induction n as [ | n IH ]; [ cbn; ring | ].
  rewrite !(dsum_S EA), IH. ring.
Qed.

Lemma quad_msub_zero (M : Matrix D) (r c : nat) (x : nat -> D) :
  rows M = r -> cols M = c ->
  quad (msub (Zero r c) M) x = dopp (quad M x).
Proof.
  intros Hr Hc. unfold quad. cbn. rewrite Hr, Hc, <- dsum_opp.
  apply (dsum_ext EA). intros i _. rewrite <- dsum_opp.
  apply (dsum_ext EA). intros j _. ring.
Qed.
End ZeroCovariance.

(** X3: in exact arithmetic a pose built from a prior factor adds no
    uncertainty: the covariance of [compose(P, A)] is [Hb Cov_A Hb^T] and the
    covariance of [compose(A, P)] is [Ha Cov_A Ha^T], entry by entry, and the
    covariance of [inverse(P)] is zero. *)
Theorem certain_operand_adds_nothing :
  forall (D : Type) (SD : Scalar D) (T : Type) (LG : LieGroup D T),
    exact_arithmetic SD ->
    forall (p : PriorFactor T) (A : PoseWithCovariance.t D T) (i j : nat),
      coef (covariance_matrix (compose (of_prior p) A)) i j =
        congruence_entry (snd (T_compose (prior p) (pose A)))
                         (covariance_matrix A) i j /\
      coef (covariance_matrix (compose A (of_prior p))) i j =
        congruence_entry (snd (fst (T_compose (pose A) (prior p))))
                         (covariance_matrix A) i j /\
      coef (covariance_matrix (inverse (of_prior p))) i j = d0.
Proof.
  intros D SD T LG EA p A i j.
  split; [ | split ].
  - unfold compose, of_prior. cbn [pose covariance_matrix].
    destruct (T_compose (prior p) (pose A)) as [[q Ha] Hb].
    change (dadd (congruence_entry Ha (Zero getDim getDim) i j)
                 (congruence_entry Hb (covariance_matrix A) i j) =
            congruence_entry Hb (covariance_matrix A) i j).
    rewrite (congruence_entry_zero EA). apply (dadd_zero_l EA).
  - unfold compose, of_prior. cbn [pose covariance_matrix].
    destruct (T_compose (pose A) (prior p)) as [[q Ha] Hb].
    change (dadd (congruence_entry Ha (covariance_matrix A) i j)
                 (congruence_entry Hb (Zero getDim getDim) i j) =
            congruence_entry Ha (covariance_matrix A) i j).
    rewrite (congruence_entry_zero EA). apply (dadd_zero_r EA).
  - unfold inverse, of_prior. cbn [pose covariance_matrix].
    destruct (T_inverse (prior p)) as [q Hi].
    change (congruence_entry Hi (Zero getDim getDim) i j = d0).
    apply (congruence_entry_zero EA).
Qed.

(** The certain quarter turn composed with the half turn, over the
    integers: the entry (0, 0). *)
Lemma certain_operand_adds_nothing_witness :
  coef (covariance_matrix (compose certain_quarter_turn half_turn)) 0 0 =
    congruence_entry (snd (T_compose (pose certain_quarter_turn) (pose half_turn)))
                     (covariance_matrix half_turn) 0 0 /\
  coef (covariance_matrix (compose half_turn certain_quarter_turn)) 0 0 =
    congruence_entry (snd (fst (T_compose (pose half_turn) (pose certain_quarter_turn))))
                     (covariance_matrix half_turn) 0 0 /\
  coef (covariance_matrix (inverse certain_quarter_turn)) 0 0 = 0%Z.
Proof.
  exact (@certain_operand_adds_nothing Z Z_Scalar (Pose2.t Z) _ Z_exact_arithmetic
           (mkPriorFactor (Pose2.mk 0%Z 1%Z 2%Z 3%Z)) half_turn 0 0).
Defined.

(** ** Poses known exactly, in binary64 *)

Lemma times_zero_zero_or_nan (x : double) :
  zero_or_nan (SFmul prec emax x (S754_zero false)).
Proof. destruct x; exact I. Qed.

Lemma zero_or_nan_mul_l (x y : double) :
  zero_or_nan x -> zero_or_nan (SFmul prec emax x y).
Proof.
  destruct x as [ sx | | | ]; cbn; intro Hx; try contradiction.
  - destruct y; exact I.
  - exact I.
Qed.

Lemma zero_or_nan_dsum (f : nat -> double) (n : nat) :
  (forall k, zero_or_nan (f k)) -> zero_or_nan (dsum f n).
Proof.
  intro Hf. induction n as [ | n IH ]; [ exact I | ].
  destruct n as [ | n ]; [ apply Hf | ].
  change (zero_or_nan (SFadd prec emax (dsum f (S n)) (f (S n)))).
  apply zero_or_nan_add; [ exact IH | apply Hf ].
Qed.

Lemma congruence_zero_binary64 (H : Matrix double) (r c i j : nat) :
  zero_or_nan (coef (mmul (mmul H (Zero r c)) (transpose H)) i j).
Proof.
  cbn. apply zero_or_nan_dsum. intro k.
  apply zero_or_nan_mul_l. apply zero_or_nan_dsum. intro l.
  apply times_zero_zero_or_nan.
Qed.

(** X4: in binary64, whatever Jacobians the pose type returns, composing two
    poses built from prior factors, or inverting one, never yields a nonzero
    or infinite variance: every entry of the resulting covariance is a zero
    or NaN. *)
Theorem certain_poses_stay_certain_binary64 :
  forall (T : Type) (LG : LieGroup double T) (p q : PriorFactor T) (i j : nat),
    zero_or_nan (coef (covariance_matrix (compose (of_prior p) (of_prior q))) i j) /\
    zero_or_nan (coef (covariance_matrix (inverse (of_prior p))) i j).
Proof.
  intros T LG p q i j. split.
  - unfold compose, of_prior. cbn [pose covariance_matrix].
    destruct (T_compose (prior p) (prior q)) as [[r Ha] Hb].
    change (zero_or_nan
              (SFadd prec emax
                 (coef (mmul (mmul Ha (Zero getDim getDim)) (transpose Ha)) i j)
                 (coef (mmul (mmul Hb (Zero getDim getDim)) (transpose Hb)) i j))).
    apply zero_or_nan_add; apply congruence_zero_binary64.
  - unfold inverse, of_prior. cbn [pose covariance_matrix].
    destruct (T_inverse (prior p)) as [r Hi].
    apply congruence_zero_binary64.
Qed.

(** ** The relative pose from a pose known exactly *)

Lemma Z_nonneg_opp (a : Z) : dleb d0 a = true -> dleb (dopp a) d0 = true.
Proof. cbn. intro H. apply Z.leb_le in H. apply Z.leb_le. lia. Qed.

(** X5: in exact arithmetic, for a pose [P] built from a prior factor, the
    matrix [between(P, B)] first factors is the covariance of [B]; when the
    factorization succeeds the result carries the covariance of [B], and
    when it fails the result carries [-(J' Cov_B J'^T)], which is negative
    semi-definite whenever the covariance of [B] is positive semi-definite
    (a singular one, which Cholesky rejects, among them). *)
Theorem between_from_certain_pose :
  forall (D : Type) (SD : Scalar D) (T : Type) (LG : LieGroup D T)
         (CH : Cholesky D),
    exact_arithmetic SD ->
    (forall a : D, dleb d0 a = true -> dleb (dopp a) d0 = true) ->
    forall (p : PriorFactor T) (B : PoseWithCovariance.t D T),
      let J := snd (fst (T_between (prior p) (pose B))) in
      let J' := snd (fst (T_between (pose B) (prior p))) in
      let first := msub (covariance_matrix B)
                        (mmul (mmul J (Zero getDim getDim)) (transpose J)) in
      (forall i j, coef first i j = coef (covariance_matrix B) i j) /\
      (llt_success first = true ->
         forall i j, coef (covariance_matrix (between (of_prior p) B)) i j =
                     coef (covariance_matrix B) i j) /\
      (llt_success first = false ->
         (forall i j, coef (covariance_matrix (between (of_prior p) B)) i j =
                      dopp (congruence_entry J' (covariance_matrix B) i j)) /\
         (psd (covariance_matrix B) ->
          conformable J' (covariance_matrix B) ->
          rows J' = getDim ->
          nsd (covariance_matrix (between (of_prior p) B)))).
Proof.
  intros D SD T LG CH EA Hopp p B.
  unfold between, between_logged, of_prior. cbn [pose covariance_matrix].
  destruct (T_between (prior p) (pose B)) as [[q Ha] Hb].
  destruct (T_between (pose B) (prior p)) as [[q' Ha'] Hb'].
  cbn [fst snd].
  assert (Hfirst : forall i j,
            coef (msub (covariance_matrix B)
                       (mmul (mmul Ha (Zero getDim getDim)) (transpose Ha))) i j =
            coef (covariance_matrix B) i j).
  { intros i j.
    change (dsub (coef (covariance_matrix B) i j)
                 (congruence_entry Ha (Zero getDim getDim) i j) =
            coef (covariance_matrix B) i j).
    rewrite (congruence_entry_zero EA). apply (dsub_zero_r EA). }
  split; [ exact Hfirst | ].
  split; intro Hllt; rewrite Hllt; cbn [negb fst pose covariance_matrix].
  - exact Hfirst.
  - split.
    + intros i j.
      change (dsub d0 (congruence_entry Ha' (covariance_matrix B) i j) =
              dopp (congruence_entry Ha' (covariance_matrix B) i j)).
      apply (dsub_zero_l EA).
    + intros HB Hc Hrows x.
      rewrite (quad_msub_zero EA); [ | exact Hrows | exact Hrows ].
      apply Hopp. apply (psd_congruence EA); assumption.
Qed.

(** The half turn, whose covariance diag(5, 0, 1) is singular, seen from the
    certain quarter turn: the factorization fails and the result is
    negative semi-definite. *)
Lemma between_from_certain_pose_witness :
  llt_success
    (msub (covariance_matrix half_turn)
          (mmul (mmul (snd (fst (T_between (pose certain_quarter_turn)
                                           (pose half_turn))))
                      (Zero 3 3))
                (transpose (snd (fst (T_between (pose certain_quarter_turn)
                                                (pose half_turn))))))) = false /\
  nsd (covariance_matrix (between certain_quarter_turn half_turn)).
Proof.
  assert (H1 : llt_success
    (msub (covariance_matrix half_turn)
          (mmul (mmul (snd (fst (T_between (pose certain_quarter_turn)
                                           (pose half_turn))))
                      (Zero 3 3))
                (transpose (snd (fst (T_between (pose certain_quarter_turn)
                                                (pose half_turn))))))) = false)
    by (vm_compute; reflexivity).
  split; [ exact H1 | ].
  destruct (@between_from_certain_pose Z Z_Scalar (Pose2.t Z) _ Eigen_Cholesky
              Z_exact_arithmetic Z_nonneg_opp
              (mkPriorFactor (Pose2.mk 0%Z 1%Z 2%Z 3%Z)) half_turn)
    as (_ & _ & H).
  destruct (H H1) as (_ & Hn).
  apply Hn; [ exact half_turn_psd | reflexivity | reflexivity ].
Defined.

(** ** The constructor from a between factor clears a NaN trace *)

Lemma dsum_pointwise (D : Type) (SD : Scalar D) (f g : nat -> D) (n : nat) :
  (forall i, i < n -> f i = g i) -> dsum f n = dsum g n.
Proof.
  induction n as [ | n IH ]; intro H; [ reflexivity | ].
  destruct n as [ | n ]; [ apply H; lia | ].
  change (dadd (dsum f (S n)) (f (S n)) = dadd (dsum g (S n)) (g (S n))).
  rewrite IH, H by auto with arith. reflexivity.
Qed.

Lemma dsum_of_zeros (D : Type) (SD : Scalar D) (n : nat) :
  dadd d0 d0 = d0 -> dsum (fun _ : nat => d0) n = d0.
Proof.
  intro H. induction n as [ | n IH ]; [ reflexivity | ].
  destruct n as [ | n ]; [ reflexivity | ].
  change (dadd (dsum (fun _ : nat => d0) (S n)) d0 = d0).
  rewrite IH. exact H.
Qed.

(** X6: for any arithmetic in which zero is not NaN and [0 + 0 = 0]
    (binary64 among them), the covariance the constructor builds from a
    between factor never has a NaN trace in its leading block of size
    [getRotationDim], the block the constructor tests; feeding that
    covariance to the constructor again changes nothing; and for a pose
    type whose tangent vector lists the rotation first (as [gtsam::Pose3]
    does) the trace of the rotation block of that covariance is never NaN. *)
Theorem of_between_clears_nan_trace :
  forall (D : Type) (SD : Scalar D) (T : Type) (LG : LieGroup D T)
         (TL : TangentLayout T),
    disnan d0 = false ->
    dadd d0 d0 = d0 ->
    forall f : BetweenFactor D T,
      disnan (leading_block_trace T (covariance_matrix (of_between f))) = false /\
      of_between (mkBetweenFactor (measured f) (covariance_matrix (of_between f))) =
        of_between f /\
      (@rotation_offset T TL = 0 ->
       disnan (rotation_block_trace T (covariance_matrix (of_between f))) = false).
Proof.
  intros D SD T LG TL Hnan Hadd f.
  assert (Hclean :
    disnan (leading_block_trace T (covariance_matrix (of_between f))) = false).
  { unfold of_between, leading_block_trace.
    destruct (disnan (trace (block (noise_covariance f) 0 0
                                   getRotationDim getRotationDim))) eqn:E;
      cbn [covariance_matrix]; [ | exact E ].
    unfold trace. cbn [rows block coef].
    rewrite (@dsum_pointwise _ _ _ (fun _ => d0)).
    - rewrite (@dsum_of_zeros _ _ _ Hadd). exact Hnan.
    - intros i Hi. cbn -[Nat.leb Nat.ltb Nat.sub].
      replace (getRotationDim <=? i) with false; [ reflexivity | ].
      symmetry. apply Nat.leb_gt. exact Hi. }
  split; [ exact Hclean | split ].
  - unfold leading_block_trace in Hclean.
    unfold of_between at 1. cbn [noise_covariance measured].
    rewrite Hclean. unfold of_between. reflexivity.
  - intro Hrot. unfold rotation_block_trace. rewrite Hrot. exact Hclean.
Qed.

(** At [nan_rotation_factor], in binary64 and at [Pose3]. *)
Lemma of_between_clears_nan_trace_witness :
  disnan (leading_block_trace (Pose3.t double)
            (covariance_matrix (of_between nan_rotation_factor))) = false /\
  of_between (mkBetweenFactor (measured nan_rotation_factor)
                (covariance_matrix (of_between nan_rotation_factor))) =
    of_between nan_rotation_factor /\
  disnan (rotation_block_trace (Pose3.t double)
            (covariance_matrix (of_between nan_rotation_factor))) = false.
Proof.
  destruct (@of_between_clears_nan_trace double double_Scalar (Pose3.t double) _ _
              eq_refl eq_refl nan_rotation_factor) as (H1 & H2 & H3).
  split; [ exact H1 | split; [ exact H2 | exact (H3 eq_refl) ] ].
Defined.

(** ** The distance of a relative pose, in binary64 *)

Lemma SFabs_binary_round (s : bool) (m : positive) (e : Z) :
  SFabs (binary_round prec emax s m e) = SFabs (binary_round prec emax false m e).
Proof.
  unfold binary_round, binary_round_aux.
  destruct (shl_align _ _ _) as [mz ez].
  destruct (shr_fexp _ _ _ _ _) as [mrs' e'].
  destruct (shr_fexp _ _ _ _ _) as [mrs'' e''].
  destruct (shr_m mrs''); [ reflexivity | | reflexivity ].
  destruct (Z.leb _ _); reflexivity.
Qed.

Lemma SFabs_binary_normalize_opp (m e : Z) :
  SFabs (binary_normalize prec emax (Z.opp m) e false) =
  SFabs (binary_normalize prec emax m e false).
Proof.
  destruct m as [ | p | p ]; cbn [Z.opp binary_normalize]; [ reflexivity | | ].
  - apply SFabs_binary_round.
  - symmetry. apply SFabs_binary_round.
Qed.

Lemma SFabs_sub_sym (a b : double) :
  SFabs (SFsub prec emax a b) = SFabs (SFsub prec emax b a).
Proof.
  destruct a as [ sa | sa | | sa ma ea ]; destruct b as [ sb | sb | | sb mb eb ];
    try (destruct sa; destruct sb; reflexivity);
    try (destruct sa; reflexivity); try (destruct sb; reflexivity);
    try reflexivity.
  unfold SFsub. rewrite (Z.min_comm eb ea).
  rewrite <- SFabs_binary_normalize_opp. f_equal. f_equal. lia.
Qed.

(** X7: in binary64 the distance of [between] does not depend on the order
    of its operands: [between(A, B)] and [between(B, A)] carry the same
    distance, that is the same number or infinity, or NaN in both cases
    (binary64 is modelled with a single NaN: the payload of a NaN is not
    compared). *)
Theorem between_distance_symmetric_binary64 :
  forall (T : Type) (LG : LieGroup double T) (A B : PoseWithDistance.t double T),
    PoseWithDistance.distance (PoseWithDistance.between A B) =
    PoseWithDistance.distance (PoseWithDistance.between B A).
Proof.
  intros T LG A B. cbn. apply SFabs_sub_sym.
Qed.

(** X8: in binary64 the distance of [between(A, A)] is [+0] when the stored
    distance is finite, and NaN when it is infinite or NaN. *)
Theorem between_self_distance_binary64 :
  forall (T : Type) (LG : LieGroup double T) (A : PoseWithDistance.t double T),
    PoseWithDistance.distance (PoseWithDistance.between A A) =
    if disfinite (PoseWithDistance.distance A) then S754_zero false else S754_nan.
Proof.
  intros T LG A. cbn.
  destruct (PoseWithDistance.distance A) as [ [ | ] | [ | ] | | s m e ];
    try reflexivity.
  cbn [SF_is_finite]. unfold SFsub.
  rewrite Z.min_id. unfold shl_align. rewrite Z.sub_diag. cbn [fst].
  reflexivity.
Qed.

(** ** Round trips of the poses *)

Section GroupFacts.
Context {D : Type} {SD : Scalar D} {T : Type} {LG : LieGroup D T}.
Variable valid : T -> Prop.
Hypothesis G : group_laws valid.

Lemma compose_between_cancel (a b : T) :
  valid a -> pose_compose a (pose_between a b) = b.
Proof.
  intro Ha.
  rewrite (between_inverse_compose G), <- (compose_assoc G).
  rewrite (compose_inverse_r G) by exact Ha.
  apply (compose_identity_l G).
Qed.

Lemma between_compose_cancel (a b : T) :
  valid a -> pose_between a (pose_compose a b) = b.
Proof.
  intro Ha.
  rewrite (between_inverse_compose G), <- (compose_assoc G).
  rewrite (compose_inverse_l G) by exact Ha.
  apply (compose_identity_l G).
Qed.

Lemma inverse_involutive (a : T) :
  valid a -> valid (pose_inverse a) -> pose_inverse (pose_inverse a) = a.
Proof.
  intros Ha Hb.
  pose proof (compose_inverse_l G _ Hb) as H1.
  pose proof (compose_inverse_r G _ Hb) as H2.
  pose proof (compose_inverse_l G _ Ha) as H3.
  transitivity (pose_compose (pose_inverse (pose_inverse a))
                             (pose_compose (pose_inverse a) a)).
  - rewrite H3, <- H2, <- (compose_assoc G), H1.
    symmetry. apply (compose_identity_l G).
  - rewrite <- (compose_assoc G), H1. apply (compose_identity_l G).
Qed.
End GroupFacts.

Lemma distance_cancel (D : Type) (SD : Scalar D) (a b : D) :
  exact_arithmetic SD -> dsub (dadd a b) a = b.
Proof.
  intro EA. pose proof (scalar_ring EA) as R.
  rewrite (Rsub_def R), (Radd_comm R a b), <- (Radd_assoc R), (Ropp_def R).
  rewrite (Radd_comm R). apply (Radd_0_l R).
Qed.

(** X9: when the poses form a group, [compose(A, between(A, B))] has the
    pose of [B], for poses with covariance (whatever the covariances and the
    Cholesky outcomes) and for poses with distance. *)
Theorem compose_between_recovers_pose :
  forall (D : Type) (SD : Scalar D) (T : Type) (LG : LieGroup D T)
         (CH : Cholesky D) (valid : T -> Prop),
    group_laws valid ->
    (forall A B : PoseWithCovariance.t D T,
       valid (pose A) ->
       pose (compose A (between A B)) = pose B) /\
    (forall A B : PoseWithDistance.t D T,
       valid (PoseWithDistance.pose A) ->
       PoseWithDistance.pose (PoseWithDistance.compose A (PoseWithDistance.between A B)) =
       PoseWithDistance.pose B).
Proof.
  intros D SD T LG CH valid G. split; intros A B HA.
  - rewrite compose_pose, between_pose. apply (compose_between_cancel G). exact HA.
  - apply (compose_between_cancel G (PoseWithDistance.pose A)
             (PoseWithDistance.pose B) HA).
Qed.

(** The quarter turn and the half turn, over the integers. *)
Lemma compose_between_recovers_pose_witness :
  pose (compose quarter_turn (between quarter_turn half_turn)) = pose half_turn /\
  PoseWithDistance.pose
    (PoseWithDistance.compose lattice_quarter
       (PoseWithDistance.between lattice_quarter lattice_half)) =
  PoseWithDistance.pose lattice_half.
Proof.
  destruct (@compose_between_recovers_pose Z Z_Scalar (Pose2.t Z) _ Eigen_Cholesky
              Pose2.valid (Pose2_group_laws Z_exact_arithmetic)) as [Hc Hd].
  split; [ apply Hc | apply Hd ]; reflexivity.
Defined.

(** X10: in exact arithmetic with a non-negative square root, when the poses
    form a group, [between(A, compose(A, r))] for poses with distance is the
    pose of [r] together with the length of the translation of [r]: the
    distance stored in [r] is not recovered. *)
Theorem distance_between_compose_round_trip :
  forall (D : Type) (SD : Scalar D) (T : Type) (LG : LieGroup D T)
         (valid : T -> Prop),
    exact_arithmetic SD ->
    (forall x : D, dleb d0 (dsqrt x) = true) ->
    (forall a : D, dleb d0 a = true -> dabs a = a) ->
    group_laws valid ->
    forall A r : PoseWithDistance.t D T,
      valid (PoseWithDistance.pose A) ->
      PoseWithDistance.between A (PoseWithDistance.compose A r) =
      PoseWithDistance.mk (PoseWithDistance.pose r)
                          (vnorm (translation (PoseWithDistance.pose r))).
Proof.
  intros D SD T LG valid EA Hsqrt Habs G A r HA.
  unfold PoseWithDistance.between, PoseWithDistance.compose.
  cbn [PoseWithDistance.pose PoseWithDistance.distance]. f_equal.
  - apply (between_compose_cancel G (PoseWithDistance.pose A)
             (PoseWithDistance.pose r) HA).
  - rewrite (distance_cancel _ _ EA). apply Habs. apply Hsqrt.
Qed.

Lemma Z_sqrt_nonneg (x : Z) : dleb d0 (dsqrt x) = true.
Proof. cbn. apply Z.leb_le. apply Z.sqrt_nonneg. Qed.

Lemma Z_abs_nonneg (a : Z) : dleb d0 a = true -> dabs a = a.
Proof. cbn. intro H. apply Z.leb_le in H. apply Z.abs_eq. exact H. Qed.

(** From the quarter turn (distance 7) along the half turn (translation
    (3, -4), stored distance 40): the round trip carries distance 5. *)
Lemma distance_between_compose_round_trip_witness :
  PoseWithDistance.between lattice_quarter
    (PoseWithDistance.compose lattice_quarter lattice_half) =
  PoseWithDistance.mk (PoseWithDistance.pose lattice_half) 5%Z.
Proof.
  apply (@distance_between_compose_round_trip Z Z_Scalar (Pose2.t Z) _ Pose2.valid
           Z_exact_arithmetic Z_sqrt_nonneg Z_abs_nonneg
           (Pose2_group_laws Z_exact_arithmetic) lattice_quarter lattice_half).
  reflexivity.
Defined.

(** X11: when the poses form a group, inverting twice gives back the pose
    with its distance, and gives back the pose of a pose with covariance. *)
Theorem inverse_twice :
  forall (D : Type) (SD : Scalar D) (T : Type) (LG : LieGroup D T)
         (valid : T -> Prop),
    group_laws valid ->
    (forall A : PoseWithDistance.t D T,
       valid (PoseWithDistance.pose A) ->
       valid (pose_inverse (PoseWithDistance.pose A)) ->
       PoseWithDistance.inverse (PoseWithDistance.inverse A) = A) /\
    (forall A : PoseWithCovariance.t D T,
       valid (pose A) ->
       valid (pose_inverse (pose A)) ->
       pose (inverse (inverse A)) = pose A).
Proof.
  intros D SD T LG valid G. split; intros A Ha Hb.
  - destruct A as [p d]. unfold PoseWithDistance.inverse.
    cbn [PoseWithDistance.pose PoseWithDistance.distance] in *. f_equal.
    apply (inverse_involutive G p Ha Hb).
  - rewrite !inverse_pose. apply (inverse_involutive G (pose A) Ha Hb).
Qed.

Lemma inverse_twice_witness :
  PoseWithDistance.inverse (PoseWithDistance.inverse lattice_quarter) =
    lattice_quarter /\
  pose (inverse (inverse quarter_turn)) = pose quarter_turn.
Proof.
  destruct (@inverse_twice Z Z_Scalar (Pose2.t Z) _ Pose2.valid
              (Pose2_group_laws Z_exact_arithmetic)) as [Hd Hc].
  split; [ apply Hd | apply Hc ]; reflexivity.
Defined.
